(** * segmentio/timers: the deadline-sharing cache (Timeline)

    A shallow embedding of [timeline.go] and the properties of its bucket
    cache: the bucket key, lookup and creation, the cleanup sweep, and
    [Cancel]. *)

From Stdlib Require Import ZArith Lia Bool List.
From stdpp Require Import base option list gmap fin_maps.

#[local] Set Warnings "-clear-no-such-hyp".

Local Open Scope Z_scope.

(** ** Go's [int64] arithmetic

    Values are integers in [-2^63, 2^63); every operation wraps around.
    [/] truncates toward zero and [%] takes the sign of the dividend. *)

Module Int64.

Definition min_int64 : Z := - 2 ^ 63.
Definition max_int64 : Z := 2 ^ 63 - 1.

Definition in_range (x : Z) : Prop := min_int64 <= x <= max_int64.

Definition wrap (x : Z) : Z := (x + 2 ^ 63) mod 2 ^ 64 - 2 ^ 63.

Definition add (x y : Z) : Z := wrap (x + y).
Definition mul (x y : Z) : Z := wrap (x * y).
Definition quo (x y : Z) : Z := wrap (Z.quot x y).
Definition rem (x y : Z) : Z := Z.rem x y.

End Int64.

(** ** The [time] package

    A [time.Time] is modelled by its number of nanoseconds since the Unix
    epoch. [time.Time] covers a far wider range than an [int64] of
    nanoseconds, so the instant itself is an unbounded integer and only
    [UnixNano] wraps. A [time.Duration] is an [int64] of nanoseconds. *)

Definition Time : Type := Z.
Definition Duration : Type := Z.

Definition Millisecond : Duration := 1000000.
Definition Second : Duration := 1000000000.

(** [time.Unix(0, nsec)] *)
Definition Unix0 (nsec : Z) : Time := nsec.

(** [t.UnixNano()] *)
Definition UnixNano (t : Time) : Z := Int64.wrap t.

(** [t.Add(d)] *)
Definition Add (t : Time) (d : Duration) : Time := t + d.

(** [t.Before(u)] and [t.After(u)] *)
Definition Before (t u : Time) : bool := t <? u.
Definition After (t u : Time) : bool := u <? t.

(** The zero [time.Time] is January 1 of year 1, 62135596800 seconds before
    the Unix epoch. *)
Definition zeroTime : Time := - 62135596800 * 1000000000.
Definition IsZero (t : Time) : bool := t =? zeroTime.

(** ** The bucket key ([Timeline.Context], the rounding of [k])

    [[
      if (k % r) != 0 {
          k = ((k / r) + 1) * r
      }
    ]] *)

Definition bucketKey (r k : Z) : Z :=
  if Int64.rem k r =? 0 then k
  else Int64.mul (Int64.add (Int64.quo k r) 1) r.

(** The rounding the documentation describes: the least multiple of [r]
    that is not below [k]. *)
Definition ceilingMultiple (r k : Z) : Z := - ((- k) / r) * r.

Definition least_multiple_ge (r k c : Z) : Prop :=
  (exists m, c = m * r) /\ k <= c /\ forall m, k <= m * r -> c <= m * r.

(** ** Code that may panic *)

Inductive result (A : Type) : Type :=
  | Ok (a : A)
  | Panic.
Arguments Ok {A} a.
Arguments Panic {A}.

#[global] Instance result_bind : MBind result := fun A B f x =>
  match x with
  | Ok a => f a
  | Panic => Panic
  end.

(** ** The [math/rand] generator

    [jitterRand] is a [*rand.Rand]. What the Timeline relies on is the
    documented contract of [Int63n]: it panics when [n <= 0] and otherwise
    returns a number of the half-open interval [[0, n)]. The generator state
    is threaded explicitly. *)

Class Rand (G : Type) : Type := {
  Int63n : G -> Z -> option (Z * G);
  Int63n_nonpositive : forall g n, n <= 0 -> Int63n g n = None;
  Int63n_positive : forall g n, 0 < n ->
    exists x g', Int63n g n = Some (x, g') /\ 0 <= x < n
}.

(** A generator that can be run: the state counts the draws. *)
Definition counterInt63n (g n : Z) : option (Z * Z) :=
  if 0 <? n then Some (g mod n, g + 1) else None.

#[refine] Instance counterRand : Rand Z := {| Int63n := counterInt63n |}.
Proof.
  - intros g n Hn. unfold counterInt63n.
    destruct (Z.ltb_spec 0 n); [lia | reflexivity].
  - intros g n Hn. unfold counterInt63n.
    destruct (Z.ltb_spec 0 n); [|lia].
    exists (g mod n), (g + 1). split; [reflexivity|].
    apply Z.mod_pos_bound; lia.
Defined.

(** ** The [context] package

    A context created by the Timeline is a heap object; its handle is its
    address, so two handles are the same context exactly when they are
    equal. The object records the deadline [Deadline()] reports, whether
    its [CancelFunc] has been called, and whether it was cancelled at its
    creation because its parent was already done. A context also ends when
    its deadline passes; that is the work of the runtime's timers on the
    real clock and no part of the Timeline's code, so it is not recorded
    here. *)

Abbreviation handle := nat.

Record ctxState : Type := {
  ctxDeadline : Time;
  ctxCanceled : bool;
  ctxBornDone : bool
}.

(** The parent handed to [WithDeadline], as [WithDeadline] reads it: the
    deadline it may carry, and whether it is already done (its [Done]
    channel is closed: it has been cancelled, or its own deadline has
    passed). *)
Record Parent : Type := {
  parentDeadline : option Time;
  parentDone : bool
}.

(** [context.Background()] has no deadline and is never cancelled. *)
Definition contextBackground : Parent :=
  {| parentDeadline := None; parentDone := false |}.

Inductive CancelFunc : Type :=
  | cancelCtx (h : handle).

(** The deadline of a context derived from [parent] with deadline [d]: [d],
    unless the parent's deadline is already earlier. *)
Definition deadlineUnder (parent : Parent) (d : Time) : Time :=
  match parentDeadline parent with
  | Some cur => if Before cur d then cur else d
  | None => d
  end.

(** [context.WithDeadline(parent, d)] allocates a new context, whose
    [CancelFunc] has not been called. When the parent's deadline is earlier
    than [d] the new context reports the parent's deadline. The new
    context is tied to its parent ([propagateCancel]): when the parent is
    already done, the new context is cancelled from the start. *)
Definition WithDeadline (parent : Parent) (d : Time) (heap : list ctxState)
  : list ctxState * (handle * CancelFunc) :=
  (heap ++ [{| ctxDeadline := deadlineUnder parent d;
               ctxCanceled := false;
               ctxBornDone := parentDone parent |}],
   (length heap, cancelCtx (length heap))).

Definition setCanceled (c : ctxState) : ctxState :=
  {| ctxDeadline := ctxDeadline c; ctxCanceled := true;
     ctxBornDone := ctxBornDone c |}.

(** Calling a [CancelFunc]. *)
Definition callCancel (f : CancelFunc) (heap : list ctxState) : list ctxState :=
  match f with
  | cancelCtx h => alter setCanceled h heap
  end.

(** [ctx.Deadline()] *)
Definition Deadline_of (h : handle) (heap : list ctxState) : Time * bool :=
  match heap !! h with
  | Some c => (ctxDeadline c, true)
  | None => (zeroTime, false)
  end.

(** Whether the [CancelFunc] of the context has been called. *)
Definition canceled (h : handle) (heap : list ctxState) : bool :=
  match heap !! h with
  | Some c => ctxCanceled c
  | None => false
  end.

(** Whether the context was cancelled at its creation, through its
    parent. *)
Definition bornDone (h : handle) (heap : list ctxState) : bool :=
  match heap !! h with
  | Some c => ctxBornDone c
  | None => false
  end.

(** Whether the context is cancelled ([ctx.Err()] is not nil for another
    reason than its deadline having passed): its [CancelFunc] has been
    called, or it was cancelled from the start. *)
Definition isDone (h : handle) (heap : list ctxState) : bool :=
  canceled h heap || bornDone h heap.

(** ** The Timeline *)

Record deadline : Type := {
  context : handle;
  cancel : CancelFunc
}.

(** [deadlines] is [None] for Go's nil map. The read-write mutex has no
    field here: the functions below run one call at a time. *)
Record Timeline : Type := {
  Resolution : Duration;
  Background : option Parent;
  deadlines : option (gmap Z deadline);
  cleanupLock : Z;
  cleanupTime : Z
}.

Definition setDeadlines (m : option (gmap Z deadline)) (t : Timeline) : Timeline :=
  {| Resolution := Resolution t; Background := Background t;
     deadlines := m;
     cleanupLock := cleanupLock t; cleanupTime := cleanupTime t |}.

Definition setCleanupLock (l : Z) (t : Timeline) : Timeline :=
  {| Resolution := Resolution t; Background := Background t;
     deadlines := deadlines t;
     cleanupLock := l; cleanupTime := cleanupTime t |}.

Definition setCleanupTime (c : Z) (t : Timeline) : Timeline :=
  {| Resolution := Resolution t; Background := Background t;
     deadlines := deadlines t;
     cleanupLock := cleanupLock t; cleanupTime := c |}.

(** The zero value of the struct, with its two configuration fields set. *)
Definition newTimeline (r : Duration) (b : option Parent) : Timeline :=
  {| Resolution := r; Background := b; deadlines := None;
     cleanupLock := 0; cleanupTime := 0 |}.

Definition HighRes : Timeline := newTimeline (10 * Millisecond) None.
Definition LowRes : Timeline := newTimeline (1 * Second) None.

(** The heap of contexts and the package-level generator. *)
Record World (G : Type) : Type := {
  heap : list ctxState;
  jitterRand : G
}.
Arguments heap {G} w.
Arguments jitterRand {G} w.

Definition setHeap {G} (h : list ctxState) (w : World G) : World G :=
  {| heap := h; jitterRand := jitterRand w |}.

(** [t.deadlines[k]]: reading a nil map finds nothing. *)
Definition lookupDeadline (k : Z) (t : Timeline) : option deadline :=
  match deadlines t with
  | Some m => m !! k
  | None => None
  end.

(** The entries a [range] over [t.deadlines] visits. *)
Definition entries (t : Timeline) : list (Z * deadline) :=
  match deadlines t with
  | Some m => map_to_list m
  | None => []
  end.

(** [delete(t.deadlines, k)]: a no-op on a nil map. *)
Definition deleteDeadline (k : Z) (t : Timeline) : Timeline :=
  setDeadlines (delete k <$> deadlines t) t.

Definition resolution (t : Timeline) : Duration :=
  if Resolution t =? 0 then 100 * Millisecond else Resolution t.

Definition background (t : Timeline) : Parent :=
  match Background t with
  | Some b => b
  | None => contextBackground
  end.

Definition makeDeadline (parent : Parent) (expiration : Time)
    (heap : list ctxState) : list ctxState * deadline :=
  let '(heap', (ctx, cancelFn)) := WithDeadline parent expiration heap in
  (heap', {| context := ctx; cancel := cancelFn |}).

(** The test of the loop: [now.After(deadline.Add(r))]. *)
Definition expired (now : Time) (r : Duration) (hp : list ctxState)
    (d : deadline) : bool :=
  After now (Add (Deadline_of (context d) hp).1 r).

(** The entry the slow path creates in the heap [hp]. *)
Definition newEntry (hp : list ctxState) : deadline :=
  {| context := length hp; cancel := cancelCtx (length hp) |}.

(** The map as a [range] or a lookup sees it: a nil map has no entry. *)
Definition mapOf (t : Timeline) : gmap Z deadline :=
  match deadlines t with
  | Some m => m
  | None => ∅
  end.

Section Operations.

Context {G : Type} {RG : Rand G}.

(** [jitterMutex] makes a draw one indivisible step. *)
Definition jitter (d : Duration) (g : G) : result (Duration * G) :=
  match Int63n g d with
  | Some (x, g') => Ok (x, g')
  | None => Panic
  end.

Definition jitterTime (t : Time) (d : Duration) (g : G) : result (Time * G) :=
  '(x, g') ← jitter d g;
  Ok (Add t x, g').

(** [Cancel]: every entry's cancel function is called, then the map is
    dropped. *)
Definition Cancel (w : World G) (t : Timeline) : World G * Timeline :=
  let heap' :=
    foldl (fun hp e => callCancel (cancel (snd e)) hp) (heap w) (entries t) in
  (setHeap heap' w, setDeadlines None t).

Definition nextCleanupTime (t : Timeline) (lastCleanupTime : Time) : Time :=
  Add lastCleanupTime (Int64.mul 100 (resolution t)).

Definition loadCleanupTime (t : Timeline) : Time :=
  Unix0 (cleanupTime t).

Definition storeCleanupTime (c : Time) (t : Timeline) : Timeline :=
  setCleanupTime (UnixNano c) t.

(** [atomic.CompareAndSwapInt64(&t.cleanupLock, 0, 1)] *)
Definition tryLockCleanup (t : Timeline) : bool * Timeline :=
  if cleanupLock t =? 0 then (true, setCleanupLock 1 t) else (false, t).

Definition unlockCleanup (t : Timeline) : Timeline :=
  setCleanupLock 0 t.

(** The body of the loop of [cleanup] for the entry [(k, d)]. *)
Definition cleanupEntry (now : Time) (r : Duration)
    (s : World G * Timeline) (e : Z * deadline) : World G * Timeline :=
  let '(w, t) := s in
  let '(k, d) := e in
  let '(dl, _) := Deadline_of (context d) (heap w) in
  if After now (Add dl r)
  then (setHeap (callCancel (cancel d) (heap w)) w, deleteDeadline k t)
  else (w, t).

(** [cleanup]: the loop visits the entries the map holds when it starts;
    the only change it makes to the map is to delete the entry at hand. *)
Definition cleanup (now : Time) (w : World G) (t : Timeline)
  : World G * Timeline :=
  foldl (cleanupEntry now (resolution t)) (w, t) (entries t).

(** The fast path of [Context]: the lookup under the read lock. *)
Definition fastPath (k : Z) (t : Timeline) : option deadline :=
  lookupDeadline k t.

(** The slow path of [Context], under the write lock: the second lookup,
    and on a miss the allocation of the map and of the entry. *)
Definition lookupOrCreate (k : Z) (bg : Parent) (expiration : Time)
    (r : Duration) (w : World G) (t : Timeline)
  : result (World G * Timeline * deadline) :=
  match lookupDeadline k t with
  | Some d => Ok (w, t, d)
  | None =>
      let m := mapOf t in
      '(e, g') ← jitterTime expiration r (jitterRand w);
      let '(heap', d) := makeDeadline bg e (heap w) in
      Ok ({| heap := heap'; jitterRand := g' |},
          setDeadlines (Some (<[k := d]> m)) t, d)
  end.

(** What the slow path leaves on a miss when the jitter drawn is [j]: the
    state between the creation of the entry and the sweep. *)
Definition created (k j : Z) (g' : G) (w : World G) (t : Timeline)
  : World G * Timeline :=
  ({| heap := heap w ++ [{| ctxDeadline :=
                              deadlineUnder (background t) (Add (Unix0 k) j);
                            ctxCanceled := false;
                            ctxBornDone := parentDone (background t) |}];
      jitterRand := g' |},
   setDeadlines (Some (<[k := newEntry (heap w)]> (mapOf t))) t).

(** Whether the caller finds a sweep due. *)
Definition cleanupDue (now : Time) (t : Timeline) : bool :=
  IsZero (loadCleanupTime t) || Before (loadCleanupTime t) now.

(** The end of [Context]: the caller that finds a sweep due and takes the
    gate publishes the next due time, sweeps, and releases the gate. *)
Definition tryCleanup (now : Time) (w : World G) (t : Timeline)
  : World G * Timeline :=
  let cleanupTime := loadCleanupTime t in
  if cleanupDue now t then
    let '(locked, t1) := tryLockCleanup t in
    if locked then
      let t2 := storeCleanupTime (nextCleanupTime t1 cleanupTime) t1 in
      let '(w3, t3) := cleanup now w t2 in
      (w3, unlockCleanup t3)
    else (w, t1)
  else (w, t).

(** The bucket of the instant [at_]. *)
Definition keyOf (t : Timeline) (at_ : Time) : Z :=
  bucketKey (resolution t) (UnixNano at_).

Definition Context (at_ now : Time) (w : World G) (t : Timeline)
  : result (World G * Timeline * handle) :=
  let r := resolution t in
  let k := UnixNano at_ in
  let k := bucketKey r k in
  match fastPath k t with
  | Some d => Ok (w, t, context d)
  | None =>
      let bg := background t in
      let expiration := Unix0 k in
      '(w1, t1, d) ← lookupOrCreate k bg expiration r w t;
      let '(w2, t2) := tryCleanup now w1 t1 in
      Ok (w2, t2, context d)
  end.

(** Whether the call [Context at_ now] reaches [t.cleanup(now)]: it misses
    the fast path, finds a sweep due, and takes the gate. *)
Definition sweeps (at_ now : Time) (t : Timeline) : bool :=
  match fastPath (keyOf t at_) t with
  | Some _ => false
  | None => cleanupDue now t && (cleanupLock t =? 0)
  end.

(** [Timeout] and [Deadline] read the clock; [clock] is what [time.Now()]
    returns. *)
Definition Timeout (clock : Time) (timeout : Duration)
    (w : World G) (t : Timeline) : result (World G * Timeline * handle) :=
  let now := clock in
  Context (Add now timeout) now w t.

Definition Deadline (clock : Time) (deadline : Time)
    (w : World G) (t : Timeline) : result (World G * Timeline * handle) :=
  Context deadline clock w t.

End Operations.


(** ** Sequences of calls *)

Inductive call : Type :=
  | CallContext (at_ now : Time)
  | CallTimeout (clock : Time) (timeout : Duration)
  | CallDeadline (clock deadline : Time)
  | CallCancel.

Section Runs.

Context {G : Type} {RG : Rand G}.

(** One call; [Cancel] returns no context. *)
Definition perform (c : call) (w : World G) (t : Timeline)
  : result (World G * Timeline * option handle) :=
  match c with
  | CallContext at_ now =>
      '(w', t', h) ← Context at_ now w t; Ok (w', t', Some h)
  | CallTimeout clock timeout =>
      '(w', t', h) ← Timeout clock timeout w t; Ok (w', t', Some h)
  | CallDeadline clock deadline =>
      '(w', t', h) ← Deadline clock deadline w t; Ok (w', t', Some h)
  | CallCancel =>
      let '(w', t') := Cancel w t in Ok (w', t', None)
  end.

(** The instant a call asks a context for. *)
Definition target (c : call) : option Time :=
  match c with
  | CallContext at_ _ => Some at_
  | CallTimeout clock timeout => Some (Add clock timeout)
  | CallDeadline _ deadline => Some deadline
  | CallCancel => None
  end.

(** The current time a call works with. *)
Definition clockOf (c : call) : option Time :=
  match c with
  | CallContext _ now => Some now
  | CallTimeout clock _ => Some clock
  | CallDeadline clock _ => Some clock
  | CallCancel => None
  end.

(** The states a Timeline goes through: it starts as the zero value with
    its configuration set, in a heap that may hold other contexts, and
    every call that returns takes it to the next state. *)
Inductive reachable (r : Duration) (bg : option Parent)
  : World G -> Timeline -> Prop :=
  | reachable_new w : reachable r bg w (newTimeline r bg)
  | reachable_call c w t w' t' o :
      reachable r bg w t ->
      perform c w t = Ok (w', t', o) ->
      reachable r bg w' t'.

(** A sequence of calls all of whose states, the first and the last
    included, satisfy [P]. *)
Inductive steps (P : World G -> Timeline -> Prop)
  : World G -> Timeline -> list call -> World G -> Timeline -> Prop :=
  | steps_nil w t : P w t -> steps P w t [] w t
  | steps_cons c cs w t w' t' o w'' t'' :
      P w t ->
      perform c w t = Ok (w', t', o) ->
      steps P w' t' cs w'' t'' ->
      steps P w t (c :: cs) w'' t''.

(** What holds of every state a Timeline goes through. *)
Record wf (w : World G) (t : Timeline) : Prop := {
  wf_cancel : forall k d,
    lookupDeadline k t = Some d -> cancel d = cancelCtx (context d);
  wf_alloc : forall k d,
    lookupDeadline k t = Some d -> (context d < length (heap w))%nat;
  wf_inj : forall k1 k2 d1 d2,
    lookupDeadline k1 t = Some d1 -> lookupDeadline k2 t = Some d2 ->
    context d1 = context d2 -> k1 = k2;
  wf_deadline : forall k d,
    lookupDeadline k t = Some d ->
    exists j, 0 <= j < resolution t /\
      Deadline_of (context d) (heap w)
        = (deadlineUnder (background t) (Add (Unix0 k) j), true);
  wf_gate : cleanupLock t = 0;
  wf_time : Int64.in_range (cleanupTime t)
}.

(** Every entry holds the cancel function of its own context, and no two
    entries hold the same context. *)
Definition ownCancels (t : Timeline) : Prop :=
  (forall k d, lookupDeadline k t = Some d ->
     cancel d = cancelCtx (context d)) /\
  (forall k1 k2 d1 d2,
     lookupDeadline k1 t = Some d1 -> lookupDeadline k2 t = Some d2 ->
     context d1 = context d2 -> k1 = k2).

(** The context [h] exists and the map files it under no key but [k]. *)
Definition issuedFor (h : handle) (k : Z) (w : World G) (t : Timeline) : Prop :=
  (h < length (heap w))%nat /\
  forall k' d, lookupDeadline k' t = Some d -> context d = h -> k' = k.

End Runs.

(** ** Goroutines calling [Context] concurrently

    Each goroutine runs one call of [Context]. What it does under the
    read-write mutex, and each atomic operation on [cleanupLock] and
    [cleanupTime], is one step; the steps of the goroutines interleave in
    any order. The program counter says where in [Context] (and in
    [cleanup]) a goroutine is and holds its local variables. *)

Inductive pc : Type :=
  | AtStart
      (** before the lookup under the read lock *)
  | AtMiss (k : Z)
      (** the fast path missed; before [t.mutex.Lock()] *)
  | AtUnlocked (d : deadline)
      (** after [t.mutex.Unlock()]; before [t.loadCleanupTime()] *)
  | AtDue (d : deadline) (cleanupTime : Time)
      (** a sweep is due; before [t.tryLockCleanup()] *)
  | AtGate (d : deadline) (cleanupTime : Time)
      (** the gate is taken; before [t.storeCleanupTime] *)
  | AtRange (d : deadline)
      (** in [cleanup], at the head of the loop *)
  | AtEntry (d : deadline) (k' : Z) (d' : deadline)
      (** in the loop body with the entry [(k', d')], read lock released *)
  | AtDelete (d : deadline) (k' : Z)
      (** [d'.cancel()] called; before [delete(t.deadlines, k')] *)
  | AtLeave (d : deadline)
      (** the loop is over; before [t.unlockCleanup()] *)
  | Returned (h : handle).

Record goroutine : Type := {
  g_at : Time;
  g_now : Time;
  g_pc : pc
}.

Definition setPc (p : pc) (g : goroutine) : goroutine :=
  {| g_at := g_at g; g_now := g_now g; g_pc := p |}.

(** What a goroutine is asked to do next: its next step; or, at the head
    of the loop of [cleanup], to take the entry of the key [k'] as the
    next one of the range, or to leave the loop. The order of a range over
    a map is not specified, and whether an entry created during the range
    is produced is not either, so every entry in the map may come next and
    the loop may end at any point. *)
Inductive move : Type :=
  | Next
  | Produce (k' : Z)
  | EndRange.

(** The contexts a step has added to the heap, [hp] before and [hp'] after,
    each with the key [k] it was made for. *)
Definition allocated (k : Z) (hp hp' : list ctxState) : list (Z * handle) :=
  (fun h => (k, h)) <$> seq (length hp) (length hp' - length hp).

Section Goroutines.

Context {G : Type} {RG : Rand G}.

(** The state the goroutines share. [made] is not in the program: it logs
    every context added to the heap, with the key it was made for. *)
Record Shared : Type := {
  world : World G;
  timeline : Timeline;
  made : list (Z * handle)
}.

Definition setWorld (w : World G) (s : Shared) : Shared :=
  {| world := w; timeline := timeline s; made := made s |}.

Definition setTimeline (t : Timeline) (s : Shared) : Shared :=
  {| world := world s; timeline := t; made := made s |}.

(** One step of one goroutine; [None] when the move does not apply, or
    when the step panics. *)
Definition advance (m : move) (s : Shared) (g : goroutine)
  : option (Shared * goroutine) :=
  let w := world s in
  let t := timeline s in
  match g_pc g, m with
  | AtStart, Next =>
      let k := keyOf t (g_at g) in
      match fastPath k t with
      | Some d => Some (s, setPc (Returned (context d)) g)
      | None => Some (s, setPc (AtMiss k) g)
      end
  | AtMiss k, Next =>
      match lookupOrCreate k (background t) (Unix0 k) (resolution t) w t with
      | Ok (w', t', d) =>
          let made' := made s ++ allocated k (heap w) (heap w') in
          Some ({| world := w'; timeline := t'; made := made' |},
                setPc (AtUnlocked d) g)
      | Panic => None
      end
  | AtUnlocked d, Next =>
      if cleanupDue (g_now g) t
      then Some (s, setPc (AtDue d (loadCleanupTime t)) g)
      else Some (s, setPc (Returned (context d)) g)
  | AtDue d cleanupTime, Next =>
      let '(locked, t') := tryLockCleanup t in
      if locked
      then Some (setTimeline t' s, setPc (AtGate d cleanupTime) g)
      else Some (s, setPc (Returned (context d)) g)
  | AtGate d cleanupTime, Next =>
      Some (setTimeline (storeCleanupTime (nextCleanupTime t cleanupTime) t) s,
            setPc (AtRange d) g)
  | AtRange d, Produce k' =>
      match lookupDeadline k' t with
      | Some d' => Some (s, setPc (AtEntry d k' d') g)
      | None => None
      end
  | AtRange d, EndRange => Some (s, setPc (AtLeave d) g)
  | AtEntry d k' d', Next =>
      if expired (g_now g) (resolution t) (heap w) d'
      then Some (setWorld (setHeap (callCancel (cancel d') (heap w)) w) s,
                 setPc (AtDelete d k') g)
      else Some (s, setPc (AtRange d) g)
  | AtDelete d k', Next =>
      Some (setTimeline (deleteDeadline k' t) s, setPc (AtRange d) g)
  | AtLeave d, Next =>
      Some (setTimeline (unlockCleanup t) s, setPc (Returned (context d)) g)
  | _, _ => None
  end.

Record Config : Type := {
  shared : Shared;
  pool : list goroutine
}.

(** The goroutine [i] makes the move [m]. *)
Definition step (im : nat * move) (c : Config) : option Config :=
  match pool c !! im.1 with
  | Some g =>
      match advance im.2 (shared c) g with
      | Some (s', g') => Some {| shared := s'; pool := <[im.1 := g']> (pool c) |}
      | None => None
      end
  | None => None
  end.

(** A schedule: who moves, in which order. *)
Fixpoint exec (sched : list (nat * move)) (c : Config) : option Config :=
  match sched with
  | [] => Some c
  | im :: sched' =>
      match step im c with
      | Some c' => exec sched' c'
      | None => None
      end
  end.

(** [n] goroutines about to call [Context]. *)
Definition start (w : World G) (t : Timeline) (calls : list (Time * Time))
  : Config :=
  {| shared := {| world := w; timeline := t; made := [] |};
     pool := (fun c => {| g_at := c.1; g_now := c.2; g_pc := AtStart |})
               <$> calls |}.

(** One goroutine on its own. *)
Definition solo (s : Shared) (g : goroutine) : Config :=
  {| shared := s; pool := [g] |}.

(** The contexts created for the bucket [k]. *)
Definition madeFor (k : Z) (s : Shared) : list (Z * handle) :=
  filter (fun e => e.1 = k) (made s).

(** The log accounts for the heap: the contexts logged are those added to
    the heap [hp0] of the start, each once, in the order of their
    creation. *)
Definition logged (hp0 : list ctxState) (s : Shared) : Prop :=
  (made s).*2 = seq (length hp0) (length (heap (world s)) - length hp0) /\
  (length hp0 <= length (heap (world s)))%nat.

(** Every context is logged under the bucket some goroutine asks for. *)
Definition askedFor (t0 : Timeline) (gs : list goroutine) (s : Shared)
  : Prop :=
  forall e, e ∈ made s -> exists g, g ∈ gs /\ keyOf t0 (g_at g) = e.1.

(** *** What holds along every schedule

    [k] is the bucket under consideration. *)

(** The goroutine's own bucket is [k] only if the entry of [k] is [d]. *)
Definition keeps (k : Z) (t : Timeline) (g : goroutine) (d : deadline) : Prop :=
  keyOf t (g_at g) = k -> lookupDeadline k t = Some d.

Definition goroutine_ok (k : Z) (t : Timeline) (g : goroutine) : Prop :=
  match g_pc g with
  | AtStart => True
  | AtMiss k0 => k0 = keyOf t (g_at g)
  | AtUnlocked d | AtDue d _ | AtGate d _ | AtRange d | AtLeave d =>
      keeps k t g d
  | AtEntry d k' d' =>
      keeps k t g d /\ (k' = k -> lookupDeadline k t = Some d')
  | AtDelete d k' => keeps k t g d /\ k' <> k
  | Returned h =>
      keyOf t (g_at g) = k ->
      exists e, lookupDeadline k t = Some e /\ context e = h
  end.

(** No context has been created for [k] while [k] has no entry; once it
    has one, that is the only context created for it, and its deadline is
    not before the earliest one the bucket can get. *)
Definition shared_ok (k : Z) (t0 : Timeline) (s : Shared) : Prop :=
  Resolution (timeline s) = Resolution t0 /\
  Background (timeline s) = Background t0 /\
  match lookupDeadline k (timeline s) with
  | None => madeFor k s = []
  | Some e =>
      madeFor k s = [(k, context e)] /\
      exists dl, Deadline_of (context e) (heap (world s)) = (dl, true) /\
        deadlineUnder (background t0) (Unix0 k) <= dl
  end.

(** The latest [now] for which the sweep keeps every entry the bucket [k]
    can get. *)
Definition graceBound (k : Z) (t0 : Timeline) : Time :=
  Add (deadlineUnder (background t0) (Unix0 k)) (resolution t0).

Definition safe (k : Z) (t0 : Timeline) (c : Config) : Prop :=
  shared_ok k t0 (shared c) /\
  Forall (fun g => g_now g <= graceBound k t0 /\
                   goroutine_ok k (timeline (shared c)) g) (pool c).

End Goroutines.

Arguments Shared G : clear implicits.
Arguments Config G : clear implicits.

(** ** Further notions about runs and goroutines *)

Section MoreRuns.

Context {G : Type} {RG : Rand G}.

(** The context [h], returned for the bucket [k], is the entry of [k] or
    has been cancelled. *)
Definition liveOrCanceled (h : handle) (k : Z) (w : World G) (t : Timeline)
  : Prop :=
  (h < length (heap w))%nat /\
  (canceled h (heap w) = true \/
   exists d, lookupDeadline k t = Some d /\ context d = h).

(** The Timeline holds no context allocated before the heap had [n]
    contexts. *)
Definition ownsFrom (n : nat) (w : World G) (t : Timeline) : Prop :=
  (n <= length (heap w))%nat /\
  forall k d, lookupDeadline k t = Some d -> (n <= context d)%nat.

(** Whether the call reaches [t.cleanup(now)]. *)
Definition callSweeps (c : call) (t : Timeline) : bool :=
  match c with
  | CallContext at_ now => sweeps at_ now t
  | CallTimeout clock timeout => sweeps (Add clock timeout) clock t
  | CallDeadline clock deadline => sweeps deadline clock t
  | CallCancel => false
  end.

(** A sequence of calls, with the number of them that sweep. *)
Fixpoint run (cs : list call) (w : World G) (t : Timeline)
  : result (World G * Timeline * nat) :=
  match cs with
  | [] => Ok (w, t, 0%nat)
  | c :: cs' =>
      '(w1, t1, _) ← perform c w t;
      '(w2, t2, n) ← run cs' w1 t1;
      Ok (w2, t2, ((if callSweeps c t then 1 else 0) + n)%nat)
  end.

End MoreRuns.

(** Whether a goroutine at this point holds the gate of the sweep: from the
    successful [tryLockCleanup] up to [unlockCleanup]. *)
Definition inSweep (p : pc) : bool :=
  match p with
  | AtGate _ _ | AtRange _ | AtEntry _ _ _ | AtDelete _ _ | AtLeave _ => true
  | AtStart | AtMiss _ | AtUnlocked _ | AtDue _ _ | Returned _ => false
  end.

(** How many goroutines of the pool hold the gate. *)
Fixpoint sweeping (gs : list goroutine) : nat :=
  match gs with
  | [] => 0
  | g :: gs' => (if inSweep (g_pc g) then 1 else 0) + sweeping gs'
  end.

(** ** The sweeps of concurrent calls *)

Section ConcurrentSweep.

Context {G : Type} {RG : Rand G}.









End ConcurrentSweep.
(** ** Arithmetic of the key *)

Section KeyArithmetic.

Lemma wrap_in_range x : Int64.in_range x -> Int64.wrap x = x.
Proof.
  unfold Int64.in_range, Int64.wrap, Int64.min_int64, Int64.max_int64.
  intros Hx. rewrite Z.mod_small; lia.
Qed.

Lemma wrap_range x : Int64.in_range (Int64.wrap x).
Proof.
  unfold Int64.in_range, Int64.wrap, Int64.min_int64, Int64.max_int64.
  pose proof (Z.mod_pos_bound (x + 2 ^ 63) (2 ^ 64) ltac:(lia)). lia.
Qed.

Lemma ceilingMultiple_least r k :
  0 < r -> least_multiple_ge r k (ceilingMultiple r k).
Proof.
  intros Hr. unfold least_multiple_ge, ceilingMultiple.
  pose proof (Z.div_mod (- k) r ltac:(lia)) as Hdm.
  pose proof (Z.mod_pos_bound (- k) r Hr) as Hmod.
  split; [by eexists|]. split; [nia|].
  intros m Hm.
  assert (- m <= (- k) / r) by (apply Z.div_le_lower_bound; lia).
  nia.
Qed.

Lemma least_multiple_ge_unique r k c c' :
  least_multiple_ge r k c -> least_multiple_ge r k c' -> c = c'.
Proof.
  intros ([m ->] & Hge & Hleast) ([m' ->] & Hge' & Hleast').
  specialize (Hleast m' Hge'). specialize (Hleast' m Hge). lia.
Qed.

(** On timestamps at or after the epoch, and as long as the next multiple
    fits an [int64], the key is the ceiling. *)
Lemma bucketKey_nonneg r k :
  0 < r -> 0 <= k -> k + r <= Int64.max_int64 ->
  bucketKey r k = ceilingMultiple r k.
Proof.
  intros Hr Hk Hmax.
  apply (least_multiple_ge_unique r k); [|by apply ceilingMultiple_least].
  unfold bucketKey, Int64.rem, Int64.quo, Int64.add, Int64.mul.
  rewrite Z.rem_mod_nonneg, Z.quot_div_nonneg by lia.
  pose proof (Z.div_mod k r ltac:(lia)) as Hdm.
  pose proof (Z.mod_pos_bound k r Hr) as Hmod.
  assert (0 <= k / r) by (apply Z.div_pos; lia).
  assert (k / r <= k) by (apply Z.div_le_upper_bound; nia).
  unfold Int64.max_int64 in Hmax.
  destruct (Z.eqb_spec (k mod r) 0) as [Hz|Hnz].
  - split; [exists (k / r); lia|]. split; [lia|]. intros; lia.
  - rewrite (wrap_in_range (k / r))
      by (unfold Int64.in_range, Int64.min_int64, Int64.max_int64; lia).
    rewrite (wrap_in_range (k / r + 1))
      by (unfold Int64.in_range, Int64.min_int64, Int64.max_int64; lia).
    assert ((k / r + 1) * r = k - k mod r + r) as Hnext by lia.
    rewrite wrap_in_range
      by (unfold Int64.in_range, Int64.min_int64, Int64.max_int64; lia).
    split; [by eexists|]. split; [lia|].
    intros m Hm.
    assert (k <> m * r) by (intros ->; rewrite Z.mod_mul in Hnz; lia).
    assert (k / r < m); [|nia].
    apply Z.div_lt_upper_bound; lia.
Qed.

(** Before the epoch the truncating division rounds the quotient up
    already, so that a timestamp that is not a multiple of the resolution
    gets the multiple after its ceiling. *)
Lemma bucketKey_before_epoch r k :
  0 < r <= Int64.max_int64 -> Int64.min_int64 <= k < 0 -> Z.rem k r <> 0 ->
  bucketKey r k = ceilingMultiple r k + r.
Proof.
  intros Hr Hk Hrem. unfold bucketKey, ceilingMultiple, Int64.rem.
  destruct (Z.eqb_spec (Z.rem k r) 0) as [|_]; [done|].
  unfold Int64.mul, Int64.add, Int64.quo.
  assert (Z.quot k r = - ((- k) / r)) as ->.
  { rewrite <- (Z.opp_involutive k) at 1.
    rewrite Z.quot_opp_l, Z.quot_div_nonneg by lia. done. }
  pose proof (Z.div_mod (- k) r ltac:(lia)) as Hdm.
  pose proof (Z.mod_pos_bound (- k) r ltac:(lia)) as Hmod.
  assert (0 <= (- k) / r) by (apply Z.div_pos; lia).
  assert ((- k) / r <= - k) by (apply Z.div_le_upper_bound; nia).
  unfold Int64.min_int64, Int64.max_int64 in *.
  rewrite (wrap_in_range (- ((- k) / r)))
    by (unfold Int64.in_range, Int64.min_int64, Int64.max_int64; lia).
  rewrite (wrap_in_range (- ((- k) / r) + 1))
    by (unfold Int64.in_range, Int64.min_int64, Int64.max_int64; lia).
  rewrite wrap_in_range; [lia|].
  unfold Int64.in_range, Int64.min_int64, Int64.max_int64. nia.
Qed.

(** A timestamp that is a multiple of the resolution is its own key,
    whatever its sign. *)
Lemma bucketKey_multiple r k : Z.rem k r = 0 -> bucketKey r k = k.
Proof. unfold bucketKey, Int64.rem. by intros ->. Qed.

Lemma bucketKey_monotone_nonneg r a b :
  0 < r -> 0 <= a -> a <= b -> b + r <= Int64.max_int64 ->
  bucketKey r a <= bucketKey r b.
Proof.
  intros Hr Ha Hab Hb.
  rewrite !bucketKey_nonneg by lia.
  destruct (ceilingMultiple_least r a Hr) as (_ & _ & Hleast).
  destruct (ceilingMultiple_least r b Hr) as ([m Hm] & Hge & _).
  rewrite Hm in *. apply Hleast. lia.
Qed.

End KeyArithmetic.

(** ** The heap of contexts *)

Section HeapFacts.

Lemma callCancel_length f hp : length (callCancel f hp) = length hp.
Proof. destruct f. apply length_alter. Qed.

Lemma Deadline_of_callCancel h f hp :
  Deadline_of h (callCancel f hp) = Deadline_of h hp.
Proof.
  destruct f as [h']. unfold Deadline_of, callCancel.
  destruct (decide (h' = h)) as [->|Hne].
  - rewrite list_lookup_alter_eq. destruct (hp !! h); reflexivity.
  - by rewrite list_lookup_alter_ne.
Qed.

Lemma canceled_callCancel h h' hp :
  canceled h (callCancel (cancelCtx h') hp) = true <->
  canceled h hp = true \/ (h = h' /\ (h < length hp)%nat).
Proof.
  unfold canceled, callCancel.
  destruct (decide (h' = h)) as [->|Hne].
  - rewrite list_lookup_alter_eq.
    destruct (hp !! h) as [c|] eqn:Hc; simpl.
    + apply lookup_lt_Some in Hc. naive_solver.
    + apply lookup_ge_None in Hc. split; [done|]. intros [|[_ ?]]; [done|lia].
  - rewrite list_lookup_alter_ne by done. naive_solver.
Qed.

Lemma WithDeadline_heap parent d hp hp' h f :
  WithDeadline parent d hp = (hp', (h, f)) ->
  h = length hp /\ f = cancelCtx h /\ length hp' = S (length hp) /\
  (forall h0, (h0 < length hp)%nat -> hp' !! h0 = hp !! h0) /\
  canceled h hp' = false.
Proof.
  unfold WithDeadline. intros [= <- <- <-].
  repeat split.
  - rewrite length_app. simpl. lia.
  - intros h0 Hlt. by rewrite lookup_app_l.
  - unfold canceled. by rewrite lookup_app_r, Nat.sub_diag.
Qed.

End HeapFacts.

(** ** The cleanup sweep *)

Section CleanupFacts.

Context {G : Type} {RG : Rand G}.

Lemma cleanupEntry_eq now r (w : World G) t k d :
  cleanupEntry now r (w, t) (k, d) =
  if expired now r (heap w) d
  then (setHeap (callCancel (cancel d) (heap w)) w, deleteDeadline k t)
  else (w, t).
Proof.
  unfold cleanupEntry, expired. by destruct (Deadline_of (context d) (heap w)).
Qed.

Lemma lookupDeadline_delete k k' t :
  lookupDeadline k' (deleteDeadline k t) =
  if decide (k = k') then None else lookupDeadline k' t.
Proof.
  unfold lookupDeadline, deleteDeadline. simpl.
  destruct (deadlines t) as [m|]; simpl.
  - apply lookup_delete.
  - by destruct (decide _).
Qed.

Lemma expired_callCancel now r f hp d :
  expired now r (callCancel f hp) d = expired now r hp d.
Proof. unfold expired. by rewrite Deadline_of_callCancel. Qed.

(** What a run of the loop over the entries [l] does: it touches nothing
    but the map and the cancellation flags, it deletes exactly the keys of
    the entries found expired, and it calls exactly their cancel
    functions. *)
Lemma cleanup_loop now r l : forall (w : World G) t w' t',
  foldl (cleanupEntry now r) (w, t) l = (w', t') ->
  (Resolution t' = Resolution t /\ Background t' = Background t /\
   cleanupLock t' = cleanupLock t /\ cleanupTime t' = cleanupTime t /\
   (deadlines t' = None <-> deadlines t = None)) /\
  (jitterRand w' = jitterRand w /\ length (heap w') = length (heap w) /\
   forall h, Deadline_of h (heap w') = Deadline_of h (heap w)) /\
  (forall k d, lookupDeadline k t' = Some d <->
     lookupDeadline k t = Some d /\
     forall d0, (k, d0) ∈ l -> expired now r (heap w) d0 = false) /\
  (forall h, canceled h (heap w') = true <->
     canceled h (heap w) = true \/
     exists k d, (k, d) ∈ l /\ expired now r (heap w) d = true /\
       cancel d = cancelCtx h /\ (h < length (heap w))%nat).
Proof.
  induction l as [|[k0 d0] l IH]; intros w t w' t' Hfold.
  - simpl in Hfold. simplify_eq. repeat split; try done.
    + by intros ? ?%elem_of_nil.
    + by intros [? _].
    + by left.
    + intros [?|(? & ? & ?%elem_of_nil & _)]; done.
  - change (foldl (cleanupEntry now r)
              (cleanupEntry now r (w, t) (k0, d0)) l = (w', t')) in Hfold.
    rewrite cleanupEntry_eq in Hfold.
    destruct (expired now r (heap w) d0) eqn:Hexp.
    + apply IH in Hfold as ((HR & HB & HL & HT & HN) & (HG & Hlen & Hdl) & Hmap & Hcan).
      simpl in *. rewrite callCancel_length in *.
      assert (forall d, expired now r (callCancel (cancel d0) (heap w)) d
                        = expired now r (heap w) d) as Hexp'
        by (intros; apply expired_callCancel).
      split; [|split; [|split]].
      * repeat split; try done.
        -- intros Hn. apply HN in Hn. by destruct (deadlines t).
        -- intros Hn. apply HN. by rewrite Hn.
      * repeat split; try done.
        intros h. by rewrite Hdl, Deadline_of_callCancel.
      * intros k d. rewrite Hmap, lookupDeadline_delete.
        destruct (decide (k0 = k)) as [->|Hne].
        -- split; [by intros [? _]|]. intros [_ Hall].
           specialize (Hall d0 ltac:(left)). congruence.
        -- split; intros [Hk Hall]; (split; [done|]).
           ++ intros d1 [[= -> ->]|Hin]%elem_of_cons; [done|].
              rewrite <- Hexp'. by apply Hall.
           ++ intros d1 Hin. rewrite Hexp'. apply Hall. by right.
      * intros h. rewrite Hcan. destruct (cancel d0) as [h0] eqn:Hc0.
        rewrite canceled_callCancel. split.
        -- intros [[?|[-> Hlt]]|(k & d & Hin & He & Hc & Hlt)].
           ++ by left.
           ++ right. exists k0, d0. split; [by left|done].
           ++ right. exists k, d. rewrite Hexp' in He.
              split; [by right|done].
        -- intros [?|(k & d & [[= -> ->]|Hin]%elem_of_cons & He & Hc & Hlt)].
           ++ by left; left.
           ++ left; right. split; [congruence|done].
           ++ right. exists k, d. by rewrite Hexp'.
    + apply IH in Hfold as (Hfields & Hheap & Hmap & Hcan).
      split; [done|]. split; [done|]. split.
      * intros k d. rewrite Hmap. split; intros [Hk Hall]; (split; [done|]).
        -- intros d1 [[= -> ->]|Hin]%elem_of_cons; [done|]. by apply Hall.
        -- intros d1 Hin. apply Hall. by right.
      * intros h. rewrite Hcan. split.
        -- intros [?|(k & d & Hin & He)]; [by left|].
           right. exists k, d. split; [by right|done].
        -- intros [?|(k & d & [[= -> ->]|Hin]%elem_of_cons & He & Hrest)].
           ++ by left.
           ++ congruence.
           ++ right. by exists k, d.
Qed.

Lemma elem_of_entries k d t :
  (k, d) ∈ entries t <-> lookupDeadline k t = Some d.
Proof.
  unfold entries, lookupDeadline. destruct (deadlines t) as [m|].
  - apply elem_of_map_to_list.
  - split; [by intros ?%elem_of_nil|done].
Qed.

(** The sweep, entry by entry. *)
Lemma cleanup_spec now (w : World G) t w' t' :
  cleanup now w t = (w', t') ->
  (Resolution t' = Resolution t /\ Background t' = Background t /\
   cleanupLock t' = cleanupLock t /\ cleanupTime t' = cleanupTime t /\
   (deadlines t' = None <-> deadlines t = None)) /\
  (jitterRand w' = jitterRand w /\ length (heap w') = length (heap w) /\
   forall h, Deadline_of h (heap w') = Deadline_of h (heap w)) /\
  (forall k d, lookupDeadline k t' = Some d <->
     lookupDeadline k t = Some d /\
     expired now (resolution t) (heap w) d = false) /\
  (forall h, canceled h (heap w') = true <->
     canceled h (heap w) = true \/
     exists k d, lookupDeadline k t = Some d /\
       expired now (resolution t) (heap w) d = true /\
       cancel d = cancelCtx h /\ (h < length (heap w))%nat).
Proof.
  unfold cleanup. intros Hfold.
  apply cleanup_loop in Hfold as (Hfields & Hheap & Hmap & Hcan).
  split; [done|]. split; [done|]. split.
  - intros k d. rewrite Hmap. split; intros [Hk Hall]; (split; [done|]).
    + apply Hall. by apply elem_of_entries.
    + intros d0 Hin%elem_of_entries. congruence.
  - intros h. rewrite Hcan.
    split; (intros [?|(k & d & Hin & Hrest)]; [by left|]);
      right; exists k, d; (split; [by apply elem_of_entries|done]).
Qed.

End CleanupFacts.

(** ** The bucket key before the epoch *)

(** C4: the bucket key is the least multiple of the resolution at or above
    the timestamp, also for timestamps before the epoch. The code computes
    it with a truncating division, so it is the ceiling for timestamps at
    or after the epoch ([bucketKey_nonneg]) and for exact multiples
    ([bucketKey_multiple]) only; before the epoch it is one resolution
    above the ceiling ([bucketKey_before_epoch]). One nanosecond before
    the epoch, on a
    zero-value Timeline: the least multiple of 100ms at or above the
    timestamp is 0, the key the code files the entry under is 100ms. *)
Theorem bucketKey_before_epoch_overshoots :
  let t := newTimeline 0 None in
  let w := {| heap := []; jitterRand := 0 |} in
  least_multiple_ge (resolution t) (UnixNano (-1)) 0 /\
  bucketKey (resolution t) (UnixNano (-1)) = 100 * Millisecond /\
  ~ least_multiple_ge (resolution t) (UnixNano (-1))
      (bucketKey (resolution t) (UnixNano (-1))) /\
  exists w' t', Deadline 1000 (-1) w t = Ok (w', t', 0%nat) /\
    lookupDeadline 0 t' = None /\
    lookupDeadline (100 * Millisecond) t'
      = Some {| context := 0%nat; cancel := cancelCtx 0%nat |}.
Proof.
  assert (least_multiple_ge 100000000 (-1) 0) as Hleast.
  { change 0 with (ceilingMultiple 100000000 (-1)).
    by apply ceilingMultiple_least. }
  intros t w. split; [exact Hleast|]. split; [reflexivity|]. split.
  - intros Hkey.
    pose proof (least_multiple_ge_unique _ _ _ _ Hleast Hkey) as Heq.
    vm_compute in Heq. discriminate.
  - eexists _, _. split; [vm_compute; reflexivity|]. split; reflexivity.
Qed.

(** C5: the bucket key is monotone over the full range of instants. With
    the same truncating division, the instant one nanosecond before the
    epoch gets a larger key than the epoch itself; the key is monotone on
    instants at or after the epoch ([bucketKey_monotone_nonneg]). *)
Theorem bucketKey_before_epoch_not_monotone :
  let r := resolution (newTimeline 0 None) in
  -1 <= 0 /\
  bucketKey r (UnixNano (-1)) = 100 * Millisecond /\
  bucketKey r (UnixNano 0) = 0 /\
  ~ (forall a b : Time, a <= b ->
       bucketKey r (UnixNano a) <= bucketKey r (UnixNano b)).
Proof.
  split; [lia|]. split; [reflexivity|]. split; [reflexivity|].
  intros Hmono. specialize (Hmono (-1) 0 ltac:(lia)).
  vm_compute in Hmono. by apply Hmono.
Qed.

(** ** Negative resolutions *)

Section NegativeResolution.

Context {G : Type} {RG : Rand G}.

(** [Context] in terms of the bucket of its instant. *)
Lemma Context_eq at_ now (w : World G) t :
  Context at_ now w t =
  match fastPath (keyOf t at_) t with
  | Some d => Ok (w, t, context d)
  | None =>
      '(w1, t1, d) ← lookupOrCreate (keyOf t at_) (background t)
                       (Unix0 (keyOf t at_)) (resolution t) w t;
      let '(w2, t2) := tryCleanup now w1 t1 in
      Ok (w2, t2, context d)
  end.
Proof. reflexivity. Qed.

(** [Timeout] and [Deadline] are calls of [Context]. *)
Lemma Timeout_Context clock timeout (w : World G) t :
  Timeout clock timeout w t = Context (Add clock timeout) clock w t.
Proof. reflexivity. Qed.

Lemma Deadline_Context clock dl (w : World G) t :
  Deadline clock dl w t = Context dl clock w t.
Proof. reflexivity. Qed.

Lemma resolution_nonzero t : resolution t <> 0.
Proof.
  unfold resolution. destruct (Z.eqb_spec (Resolution t) 0); [|done].
  unfold Millisecond. lia.
Qed.

Lemma Context_miss_panics_iff at_ now (w : World G) t :
  fastPath (keyOf t at_) t = None ->
  (Context at_ now w t = Panic <-> resolution t <= 0).
Proof.
  intros Hmiss. rewrite Context_eq, Hmiss.
  unfold lookupOrCreate. unfold fastPath in Hmiss. rewrite Hmiss.
  unfold jitterTime, jitter. simpl.
  destruct (Z_lt_le_dec 0 (resolution t)) as [Hpos|Hneg].
  - destruct (Int63n_positive (jitterRand w) _ Hpos) as (x & g' & -> & _).
    simpl. destruct (tryCleanup _ _ _). split; [done|lia].
  - by rewrite (Int63n_nonpositive _ _ Hneg).
Qed.

(** C9: with a negative [Resolution], [resolution()] returns it unchanged
    and every call of [Context], [Timeout] or [Deadline] that misses the
    cache panics in [jitter]. *)
Theorem negative_Resolution_panics (w : World G) t :
  Resolution t < 0 ->
  resolution t = Resolution t /\
  (forall g, jitter (resolution t) g = Panic) /\
  (forall at_ now,
     fastPath (keyOf t at_) t = None ->
     Context at_ now w t = Panic) /\
  (forall clock timeout,
     fastPath (keyOf t (Add clock timeout)) t = None ->
     Timeout clock timeout w t = Panic) /\
  (forall clock dl,
     fastPath (keyOf t dl) t = None ->
     Deadline clock dl w t = Panic).
Proof.
  intros Hneg.
  assert (resolution t = Resolution t) as Hr.
  { unfold resolution. destruct (Z.eqb_spec (Resolution t) 0); [lia|done]. }
  split; [done|]. split; [|split; [|split]].
  - intros g. unfold jitter. rewrite Int63n_nonpositive; [done|lia].
  - intros at_ now Hmiss. apply Context_miss_panics_iff; [done|lia].
  - intros clock timeout Hmiss. unfold Timeout.
    apply Context_miss_panics_iff; [done|lia].
  - intros clock dl Hmiss. unfold Deadline.
    apply Context_miss_panics_iff; [done|lia].
Qed.

End NegativeResolution.

Lemma negative_Resolution_panics_witness :
  Resolution (newTimeline (-10) None) < 0 /\
  Context 5 1000 {| heap := []; jitterRand := 0 |} (newTimeline (-10) None)
    = Panic.
Proof.
  split; [reflexivity|].
  apply (negative_Resolution_panics
           {| heap := []; jitterRand := 0 |} (newTimeline (-10) None));
    reflexivity.
Defined.

(** ** [Cancel] *)

Section CancelFacts.

Context {G : Type} {RG : Rand G}.

Lemma setHeap_heap (w : World G) : setHeap (heap w) w = w.
Proof. by destruct w. Qed.

Lemma entries_nil t :
  entries t = [] <-> deadlines t = None \/ deadlines t = Some ∅.
Proof.
  unfold entries. destruct (deadlines t) as [m|].
  - rewrite map_to_list_empty_iff. naive_solver.
  - naive_solver.
Qed.

(** C10: on a Timeline without entries (a nil or an empty map) [Cancel]
    changes no context and leaves the map nil; and cancelling twice is the
    same as cancelling once. [Cancel] is a total function: it cannot
    panic. *)
Theorem Cancel_without_entries (w : World G) t :
  (deadlines t = None \/ deadlines t = Some ∅ ->
   Cancel w t = (w, setDeadlines None t)) /\
  Cancel (Cancel w t).1 (Cancel w t).2 = Cancel w t.
Proof.
  split.
  - intros Hempty%entries_nil. unfold Cancel. rewrite Hempty. simpl.
    by rewrite setHeap_heap.
  - unfold Cancel, setHeap, setDeadlines. simpl. reflexivity.
Qed.

End CancelFacts.

Lemma Cancel_without_entries_witness :
  Cancel {| heap := []; jitterRand := 0 |} HighRes
    = ({| heap := []; jitterRand := 0 |}, HighRes).
Proof.
  apply (proj1 (Cancel_without_entries
                  {| heap := []; jitterRand := 0 |} HighRes)).
  left. reflexivity.
Defined.

(** ** Lookup, creation and the sweep at the end of [Context] *)

Section ContextFacts.

Context {G : Type} {RG : Rand G}.

Implicit Types (w : World G) (t : Timeline) (d : deadline).

Lemma wf_new w r bg : wf w (newTimeline r bg).
Proof. by split. Qed.

Lemma lookupDeadline_mapOf k t : lookupDeadline k t = mapOf t !! k.
Proof. unfold lookupDeadline, mapOf. by destruct (deadlines t). Qed.

Lemma lookupDeadline_insert k k' d t :
  lookupDeadline k' (setDeadlines (Some (<[k := d]> (mapOf t))) t) =
  if decide (k = k') then Some d else lookupDeadline k' t.
Proof.
  rewrite (lookupDeadline_mapOf k' t).
  unfold lookupDeadline. simpl. apply lookup_insert.
Qed.

Lemma lookupOrCreate_hit k bg e r w t d :
  lookupDeadline k t = Some d ->
  lookupOrCreate k bg e r w t = Ok (w, t, d).
Proof. unfold lookupOrCreate. by intros ->. Qed.

Lemma lookupOrCreate_miss k bg e r w t :
  lookupDeadline k t = None -> 0 < r ->
  exists j g', 0 <= j < r /\ Int63n (jitterRand w) r = Some (j, g') /\
    lookupOrCreate k bg e r w t =
    Ok ({| heap := heap w ++ [{| ctxDeadline := deadlineUnder bg (Add e j);
                                 ctxCanceled := false;
                                 ctxBornDone := parentDone bg |}];
           jitterRand := g' |},
        setDeadlines (Some (<[k := newEntry (heap w)]> (mapOf t))) t,
        newEntry (heap w)).
Proof.
  intros Hmiss Hr. unfold lookupOrCreate. rewrite Hmiss.
  destruct (Int63n_positive (jitterRand w) r Hr) as (j & g' & Hj & Hrange).
  exists j, g'. split; [done|]. split; [done|].
  unfold jitterTime, jitter. rewrite Hj. reflexivity.
Qed.

Lemma Deadline_of_app h hp c :
  (h < length hp)%nat -> Deadline_of h (hp ++ [c]) = Deadline_of h hp.
Proof. intros Hlt. unfold Deadline_of. by rewrite lookup_app_l. Qed.

Lemma Deadline_of_new hp c :
  Deadline_of (length hp) (hp ++ [c]) = (ctxDeadline c, true).
Proof. unfold Deadline_of. by rewrite lookup_app_r, Nat.sub_diag. Qed.

Lemma canceled_app h hp c :
  (h < length hp)%nat -> canceled h (hp ++ [c]) = canceled h hp.
Proof. intros Hlt. unfold canceled. by rewrite lookup_app_l. Qed.

Lemma canceled_new hp c : canceled (length hp) (hp ++ [c]) = ctxCanceled c.
Proof. unfold canceled. by rewrite lookup_app_r, Nat.sub_diag. Qed.

(** Creation keeps the invariant. *)
Lemma wf_create k j (g' : G) w t :
  wf w t -> lookupDeadline k t = None -> 0 <= j < resolution t ->
  wf {| heap := heap w ++ [{| ctxDeadline :=
                                deadlineUnder (background t) (Add (Unix0 k) j);
                              ctxCanceled := false;
                              ctxBornDone := parentDone (background t) |}];
        jitterRand := g' |}
     (setDeadlines (Some (<[k := newEntry (heap w)]> (mapOf t))) t).
Proof.
  intros [Hc Ha Hi Hd Hg Ht] Hmiss Hj. split; simpl.
  - intros k' d. rewrite lookupDeadline_insert.
    case_decide; [by intros [= <-]|by apply Hc].
  - intros k' d. rewrite lookupDeadline_insert, length_app. simpl.
    case_decide; [intros [= <-]; simpl; lia|].
    intros Hk. apply Ha in Hk. lia.
  - intros k1 k2 d1 d2. rewrite !lookupDeadline_insert.
    repeat case_decide; subst; try done.
    + intros [= <-] Hk2 Heq. apply Ha in Hk2. simpl in Heq. lia.
    + intros Hk1 [= <-] Heq. apply Ha in Hk1. simpl in Heq. lia.
    + apply Hi.
  - intros k' d. rewrite lookupDeadline_insert.
    case_decide as Hk; [intros [= <-]; subst k'|].
    + exists j. split; [done|]. simpl. by rewrite Deadline_of_new.
    + intros Hk'. destruct (Hd _ _ Hk') as (j' & Hj' & Hdl).
      exists j'. split; [done|].
      rewrite Deadline_of_app; [done|by eapply Ha].
  - done.
  - done.
Qed.

(** The end of [Context] when the gate is free. *)
Lemma tryCleanup_spec now w t w' t' :
  cleanupLock t = 0 ->
  tryCleanup now w t = (w', t') ->
  (Resolution t' = Resolution t /\ Background t' = Background t /\
   cleanupLock t' = 0 /\
   cleanupTime t' =
     (if cleanupDue now t
      then UnixNano (nextCleanupTime t (loadCleanupTime t))
      else cleanupTime t) /\
   (deadlines t' = None <-> deadlines t = None)) /\
  (jitterRand w' = jitterRand w /\ length (heap w') = length (heap w) /\
   forall h, Deadline_of h (heap w') = Deadline_of h (heap w)) /\
  (forall k d, lookupDeadline k t' = Some d <->
     lookupDeadline k t = Some d /\
     (cleanupDue now t = true ->
      expired now (resolution t) (heap w) d = false)) /\
  (forall h, canceled h (heap w') = true <->
     canceled h (heap w) = true \/
     cleanupDue now t = true /\
     exists k d, lookupDeadline k t = Some d /\
       expired now (resolution t) (heap w) d = true /\
       cancel d = cancelCtx h /\ (h < length (heap w))%nat).
Proof.
  intros Hgate. unfold tryCleanup, tryLockCleanup. rewrite Hgate. simpl.
  destruct (cleanupDue now t) eqn:Hdue.
  - destruct (cleanup _ _ _) as [w3 t3] eqn:Hsweep. intros [= <- <-].
    apply cleanup_spec in Hsweep
      as ((HR & HB & HL & HT & HN) & Hheap & Hmap & Hcan).
    pose proof (Hmap : forall k d, lookupDeadline k t3 = Some d <->
      lookupDeadline k t = Some d /\
      expired now (resolution t) (heap w) d = false) as Hmap'.
    pose proof (Hcan : forall h, canceled h (heap w3) = true <->
      canceled h (heap w) = true \/
      exists k d, lookupDeadline k t = Some d /\
        expired now (resolution t) (heap w) d = true /\
        cancel d = cancelCtx h /\ (h < length (heap w))%nat) as Hcan'.
    clear Hmap Hcan.
    split; [|split; [done|split]].
    + split; [exact HR|]. split; [exact HB|]. split; [reflexivity|].
      split; [exact HT|exact HN].
    + intros k d.
      change (lookupDeadline k (unlockCleanup t3))
        with (lookupDeadline k t3).
      rewrite Hmap'. naive_solver.
    + intros h. rewrite Hcan'. naive_solver.
  - intros [= <- <-]. repeat split; try done; try naive_solver.
Qed.

Lemma wf_tryCleanup now w t w' t' :
  wf w t -> tryCleanup now w t = (w', t') -> wf w' t'.
Proof.
  intros [Hc Ha Hi Hd Hg Ht] Hsweep.
  apply tryCleanup_spec in Hsweep
    as ((HR & HB & HL & HT & HN) & (_ & Hlen & Hdl) & Hmap & _); [|done].
  assert (resolution t' = resolution t) as Hres
    by (unfold resolution; by rewrite HR).
  assert (background t' = background t) as Hbg
    by (unfold background; by rewrite HB).
  split.
  - intros k d [Hk _]%Hmap. by eapply Hc.
  - intros k d [Hk _]%Hmap. rewrite Hlen. by eapply Ha.
  - intros k1 k2 d1 d2 [Hk1 _]%Hmap [Hk2 _]%Hmap. by eapply Hi.
  - intros k d [Hk _]%Hmap. rewrite Hres, Hbg, Hdl. by apply Hd.
  - done.
  - rewrite HT. destruct (cleanupDue now t); [apply wrap_range|done].
Qed.

Lemma wf_Cancel w t w' t' : wf w t -> Cancel w t = (w', t') -> wf w' t'.
Proof.
  intros [Hc Ha Hi Hd Hg Ht]. unfold Cancel. intros [= <- <-].
  by split.
Qed.

End ContextFacts.

(** ** What the sweep removes *)

Section SweepGrace.

Context {G : Type} {RG : Rand G}.

Lemma expired_true now r hp d :
  expired now r hp d = true <-> Add (Deadline_of (context d) hp).1 r < now.
Proof. unfold expired, After. apply Z.ltb_lt. Qed.

Lemma expired_false now r hp d :
  expired now r hp d = false <-> now <= Add (Deadline_of (context d) hp).1 r.
Proof. unfold expired, After. apply Z.ltb_ge. Qed.

(** Every state a Timeline goes through has entries that own their
    cancel functions, and has a positive resolution if it has an entry. *)
Lemma wf_ownCancels (w : World G) t :
  wf w t ->
  ownCancels t /\
  forall k d, lookupDeadline k t = Some d -> 0 < resolution t.
Proof.
  intros Hwf. split; [split|].
  - apply (wf_cancel _ _ Hwf).
  - apply (wf_inj _ _ Hwf).
  - intros k d Hk. destruct (wf_deadline _ _ Hwf _ _ Hk) as (j & Hj & _). lia.
Qed.

(** The sweep as one call runs it, with no step of another goroutine
    between two of its own: it removes an entry, and calls its cancel
    function, only when [now] is strictly after the deadline of its context
    plus one resolution. Entries for which this is not so stay as they
    are, and the sweep adds none. With a positive resolution (which a Timeline that has
    entries has) an entry whose deadline has not elapsed is therefore never
    removed; and when the entries own their cancel functions (as they do
    in every state of a Timeline) the contexts of the entries that stay are
    not cancelled by the sweep. *)
Lemma cleanup_past_grace now (w : World G) t w' t' :
  cleanup now w t = (w', t') ->
  (forall k d, lookupDeadline k t = Some d ->
     let dl := (Deadline_of (context d) (heap w)).1 in
     (Add dl (resolution t) < now -> lookupDeadline k t' = None) /\
     (now <= Add dl (resolution t) -> lookupDeadline k t' = Some d) /\
     (0 < resolution t -> now <= dl -> lookupDeadline k t' = Some d) /\
     (ownCancels t -> now <= Add dl (resolution t) ->
      canceled (context d) (heap w') = canceled (context d) (heap w))) /\
  (forall k d, lookupDeadline k t' = Some d -> lookupDeadline k t = Some d) /\
  (forall h, canceled h (heap w') = true ->
     canceled h (heap w) = true \/
     exists k d, lookupDeadline k t = Some d /\ cancel d = cancelCtx h /\
       Add (Deadline_of (context d) (heap w)).1 (resolution t) < now /\
       lookupDeadline k t' = None).
Proof.
  intros Hsweep.
  apply cleanup_spec in Hsweep as (_ & _ & Hmap & Hcan).
  assert (forall k d, lookupDeadline k t = Some d ->
            Add (Deadline_of (context d) (heap w)).1 (resolution t) < now ->
            lookupDeadline k t' = None) as Hgone.
  { intros k d Hk Hlt%expired_true.
    destruct (lookupDeadline k t') as [d'|] eqn:Hk'; [|done].
    apply Hmap in Hk' as [Hk' Hexp]. congruence. }
  assert (forall k d, lookupDeadline k t = Some d ->
            now <= Add (Deadline_of (context d) (heap w)).1 (resolution t) ->
            lookupDeadline k t' = Some d) as Hkept.
  { intros k d Hk Hle%expired_false. by apply Hmap. }
  split; [|split].
  - intros k d Hk dl. split; [by apply Hgone|]. split; [by apply Hkept|].
    split.
    + intros Hr Hle. apply Hkept; [done|]. unfold Add. fold dl. lia.
    + intros [Hown Hinj] Hle.
      destruct (canceled (context d) (heap w)) eqn:Hold.
      * apply Hcan. by left.
      * destruct (canceled (context d) (heap w')) eqn:Hnew; [|done].
        apply Hcan in Hnew as [?|(k0 & d0 & Hk0 & Hexp & Hc & _)]; [congruence|].
        rewrite (Hown _ _ Hk0) in Hc. injection Hc as Hc.
        assert (k0 = k) as -> by (by eapply Hinj).
        assert (d0 = d) as -> by congruence.
        apply expired_true in Hexp. fold dl in Hexp. lia.
  - intros k d Hk. by apply Hmap in Hk as [Hk _].
  - intros h [?|(k & d & Hk & Hexp & Hc & _)]%Hcan; [by left|].
    right. exists k, d. apply expired_true in Hexp. eauto.
Qed.

End SweepGrace.

Example cleanup_past_grace_two_entries :
  let d0 := {| context := 0%nat; cancel := cancelCtx 0%nat |} in
  let d1 := {| context := 1%nat; cancel := cancelCtx 1%nat |} in
  let w := {| heap := [ {| ctxDeadline := 1000; ctxCanceled := false;
                           ctxBornDone := false |};
                        {| ctxDeadline := 1021; ctxCanceled := false;
                           ctxBornDone := false |} ];
              jitterRand := 2 |} in
  let t := {| Resolution := 10; Background := None;
              deadlines := Some (<[1000 := d0]> (<[1020 := d1]> ∅));
              cleanupLock := 0; cleanupTime := 1000 |} in
  lookupDeadline 1000 (cleanup 1015 w t).2 = None /\
  lookupDeadline 1020 (cleanup 1015 w t).2 = Some d1.
Proof.
  intros d0 d1 w t.
  destruct (cleanup_past_grace 1015 w t _ _
              (surjective_pairing _)) as [Hentries _].
  split.
  - destruct (Hentries 1000 d0 eq_refl) as (Hgone & _).
    apply Hgone. reflexivity.
  - destruct (Hentries 1020 d1 eq_refl) as (_ & Hkept & _).
    apply Hkept. vm_compute. discriminate.
Qed.

(** ** One call of [Context] *)

Section ContextPost.

Context {G : Type} {RG : Rand G}.

Implicit Types (w : World G) (t : Timeline) (d : deadline).

Lemma Context_hit at_ now w t d :
  lookupDeadline (keyOf t at_) t = Some d ->
  Context at_ now w t = Ok (w, t, context d).
Proof. intros Hhit. rewrite Context_eq. unfold fastPath. by rewrite Hhit. Qed.

Lemma Context_miss at_ now w t :
  lookupDeadline (keyOf t at_) t = None -> 0 < resolution t ->
  exists j g' w1 t1, 0 <= j < resolution t /\
    Int63n (jitterRand w) (resolution t) = Some (j, g') /\
    created (keyOf t at_) j g' w t = (w1, t1) /\
    Context at_ now w t = Ok (tryCleanup now w1 t1, length (heap w)).
Proof.
  intros Hmiss Hr. rewrite Context_eq. unfold fastPath. rewrite Hmiss.
  destruct (lookupOrCreate_miss (keyOf t at_) (background t)
              (Unix0 (keyOf t at_)) (resolution t) w t Hmiss Hr)
    as (j & g' & Hj & Hdraw & ->).
  exists j, g'. eexists _, _. split; [done|]. split; [done|].
  split; [reflexivity|]. simpl. by destruct (tryCleanup _ _ _).
Qed.

(** What the creation of the entry leaves. *)
Lemma created_spec k j g' w t w1 t1 :
  wf w t -> lookupDeadline k t = None -> 0 <= j < resolution t ->
  created k j g' w t = (w1, t1) ->
  wf w1 t1 /\
  heap w1 = heap w ++
    [{| ctxDeadline := deadlineUnder (background t) (Add (Unix0 k) j);
        ctxCanceled := false;
        ctxBornDone := parentDone (background t) |}] /\
  jitterRand w1 = g' /\
  (Resolution t1 = Resolution t /\ Background t1 = Background t /\
   cleanupLock t1 = cleanupLock t /\ cleanupTime t1 = cleanupTime t /\
   deadlines t1 <> None) /\
  forall k' d, lookupDeadline k' t1 = Some d <->
    if decide (k = k') then d = newEntry (heap w)
    else lookupDeadline k' t = Some d.
Proof.
  intros Hwf Hk Hj. unfold created. intros [= <- <-].
  split; [by apply wf_create|]. split; [done|]. split; [done|].
  split; [done|].
  intros k' d. rewrite lookupDeadline_insert. case_decide; naive_solver.
Qed.

(** A call that returns on a miss has a positive resolution. *)
Lemma Context_Ok_miss_positive at_ now w t w' t' h :
  Context at_ now w t = Ok (w', t', h) ->
  lookupDeadline (keyOf t at_) t = None -> 0 < resolution t.
Proof.
  intros HOk Hmiss.
  destruct (Z_lt_le_dec 0 (resolution t)) as [|Hle]; [done|].
  apply (Context_miss_panics_iff at_ now w t Hmiss) in Hle. congruence.
Qed.

Lemma deadlineUnder_le parent x : deadlineUnder parent x <= x.
Proof.
  unfold deadlineUnder, Before. destruct (parentDeadline parent) as [cur|]; [|lia].
  destruct (Z.ltb_spec cur x); lia.
Qed.

Lemma deadlineUnder_None parent x :
  parentDeadline parent = None -> deadlineUnder parent x = x.
Proof. unfold deadlineUnder. by intros ->. Qed.

(** What one call of [Context] that returns has done. *)
Lemma Context_post at_ now w t w' t' h :
  wf w t -> Context at_ now w t = Ok (w', t', h) ->
  wf w' t' /\
  (Resolution t' = Resolution t /\ Background t' = Background t) /\
  ((length (heap w) <= length (heap w'))%nat /\
   (h < length (heap w'))%nat /\
   forall h0, (h0 < length (heap w))%nat ->
     Deadline_of h0 (heap w') = Deadline_of h0 (heap w)) /\
  match lookupDeadline (keyOf t at_) t with
  | Some d => h = context d /\ w' = w /\ t' = t
  | None => h = length (heap w)
  end /\
  (exists j, 0 <= j < resolution t /\
     Deadline_of h (heap w')
       = (deadlineUnder (background t) (Add (Unix0 (keyOf t at_)) j), true)) /\
  (forall k d, lookupDeadline k t' = Some d ->
     (k = keyOf t at_ <-> context d = h)) /\
  (forall k d, lookupDeadline k t' = Some d -> k <> keyOf t at_ ->
     lookupDeadline k t = Some d) /\
  (forall k d d', lookupDeadline k t = Some d ->
     lookupDeadline k t' = Some d' -> d' = d).
Proof.
  intros Hwf HOk.
  destruct (lookupDeadline (keyOf t at_) t) as [d|] eqn:Hk.
  - rewrite (Context_hit _ _ _ _ _ Hk) in HOk. injection HOk as <- <- <-.
    split; [done|]. split; [done|]. split.
    { split; [done|]. split; [by eapply (wf_alloc _ _ Hwf)|done]. }
    split; [done|]. split; [by eapply (wf_deadline _ _ Hwf)|].
    split; [|split].
    + intros k d' Hk'. split.
      * intros ->. congruence.
      * intros Heq. by eapply (wf_inj _ _ Hwf).
    + done.
    + intros k d1 d2 H1 H2. congruence.
  - pose proof (Context_Ok_miss_positive _ _ _ _ _ _ _ HOk Hk) as Hr.
    destruct (Context_miss at_ now w t Hk Hr)
      as (j & g' & w1 & t1 & Hj & _ & Hcr & HOk').
    rewrite HOk in HOk'. injection HOk' as Hsweep ->.
    set (k := keyOf t at_) in *.
    apply created_spec in Hcr
      as (Hwf1 & Hheap1 & _ & (HR1 & HB1 & _) & Hmap1); [|done..].
    assert (length (heap w1) = S (length (heap w))) as Hlen1
      by (rewrite Hheap1, length_app; simpl; lia).
    symmetry in Hsweep.
    pose proof (wf_tryCleanup _ _ _ _ _ Hwf1 Hsweep) as Hwf'.
    apply tryCleanup_spec in Hsweep
      as ((HR & HB & HL & HT & HN) & (_ & Hlen & Hdl) & Hmap & _);
      [|by apply (wf_gate _ _ Hwf1)].
    split; [done|]. split; [split; congruence|]. split.
    { split; [lia|]. split; [lia|]. intros h0 Hlt.
      by rewrite Hdl, Hheap1, Deadline_of_app. }
    split; [done|]. split.
    { exists j. split; [done|]. by rewrite Hdl, Hheap1, Deadline_of_new. }
    split; [|split].
    + intros k' d [Hk' _]%Hmap. apply Hmap1 in Hk'.
      case_decide as Hkk; [subst; simpl; naive_solver|].
      apply (wf_alloc _ _ Hwf) in Hk'. split; [congruence|lia].
    + intros k' d [Hk' _]%Hmap Hne. apply Hmap1 in Hk'.
      by case_decide.
    + intros k' d d' Hold [Hk' _]%Hmap. apply Hmap1 in Hk'.
      case_decide; [congruence|congruence].
Qed.

Lemma perform_inv c w t w' t' o :
  perform c w t = Ok (w', t', o) ->
  (c = CallCancel /\ Cancel w t = (w', t') /\ o = None) \/
  (exists at_ now h, target c = Some at_ /\
     Context at_ now w t = Ok (w', t', h) /\ o = Some h).
Proof.
  destruct c as [at_ now|clock timeout|clock dl|]; simpl.
  - destruct (Context at_ now w t) as [[[w1 t1] h]|] eqn:HOk; [|done].
    intros [= <- <- <-]. right. by exists at_, now, h.
  - unfold Timeout.
    destruct (Context _ clock w t) as [[[w1 t1] h]|] eqn:HOk; [|done].
    intros [= <- <- <-]. right. by exists (Add clock timeout), clock, h.
  - unfold Deadline.
    destruct (Context dl clock w t) as [[[w1 t1] h]|] eqn:HOk; [|done].
    intros [= <- <- <-]. right. by exists dl, clock, h.
  - destruct (Cancel w t) as [w1 t1] eqn:HC. intros [= <- <- <-]. by left.
Qed.

Lemma perform_wf c w t w' t' o :
  wf w t -> perform c w t = Ok (w', t', o) ->
  wf w' t' /\ Resolution t' = Resolution t /\ Background t' = Background t.
Proof.
  intros Hwf [(-> & HC & ->)|(at_ & now & h & _ & HOk & ->)]%perform_inv.
  - split; [by eapply wf_Cancel|]. unfold Cancel in HC. by injection HC as <- <-.
  - apply Context_post in HOk as (? & [? ?] & _); done.
Qed.

(** Every state a Timeline goes through is well formed, and its
    configuration is the one it started with. *)
Lemma reachable_wf r bg w t :
  reachable r bg w t -> wf w t /\ Resolution t = r /\ Background t = bg.
Proof.
  induction 1 as [w|c w t w' t' o _ (Hwf & HR & HB) Hcall].
  - split; [apply wf_new|done].
  - apply perform_wf in Hcall as (? & ? & ?); [|done].
    split; [done|]. split; congruence.
Qed.

End ContextPost.

(** ** The entry a call creates, and the sweep of the same call *)

Section CreatedEntry.

Context {G : Type} {RG : Rand G}.

Implicit Types (w : World G) (t : Timeline) (d : deadline).

Lemma Context_returns at_ now w t :
  0 < resolution t -> exists w' t' h, Context at_ now w t = Ok (w', t', h).
Proof.
  intros Hr. destruct (lookupDeadline (keyOf t at_) t) as [d|] eqn:Hk.
  - eexists _, _, _. by apply Context_hit.
  - destruct (Context_miss at_ now w t Hk Hr) as (j & g' & w1 & t1 & _ & _ & _ & ->).
    destruct (tryCleanup now w1 t1) as [w' t']. by eexists _, _, _.
Qed.

(** On a miss the new entry is swept away, cancelled, by the call that
    created it exactly when that call finds a sweep due and its [now]
    strictly after the new deadline plus one resolution. *)
Lemma Context_miss_post at_ now w t w' t' h :
  wf w t -> Context at_ now w t = Ok (w', t', h) ->
  lookupDeadline (keyOf t at_) t = None ->
  let gone := cleanupDue now t &&
              expired now (resolution t) (heap w') (newEntry (heap w)) in
  h = length (heap w) /\
  length (heap w') = S (length (heap w)) /\
  canceled h (heap w') = gone /\
  lookupDeadline (keyOf t at_) t'
    = (if gone then None else Some (newEntry (heap w))) /\
  deadlines t' <> None /\
  cleanupTime t' =
    (if cleanupDue now t
     then UnixNano (nextCleanupTime t (loadCleanupTime t))
     else cleanupTime t).
Proof.
  intros Hwf HOk Hk gone.
  pose proof (Context_Ok_miss_positive _ _ _ _ _ _ _ HOk Hk) as Hr.
  destruct (Context_miss at_ now w t Hk Hr)
    as (j & g' & w1 & t1 & Hj & _ & Hcr & HOk').
  rewrite HOk in HOk'. injection HOk' as Hsweep ->. symmetry in Hsweep.
  set (k := keyOf t at_) in *.
  apply created_spec in Hcr
    as (Hwf1 & Hheap1 & _ & (HR1 & HB1 & HL1 & HT1 & HN1) & Hmap1); [|done..].
  assert (length (heap w1) = S (length (heap w))) as Hlen1
    by (rewrite Hheap1, length_app; simpl; lia).
  assert (lookupDeadline k t1 = Some (newEntry (heap w))) as Hk1
    by (apply Hmap1; by case_decide).
  assert (resolution t1 = resolution t) as Hres
    by (unfold resolution; by rewrite HR1).
  assert (cleanupDue now t1 = cleanupDue now t) as Hdue
    by (unfold cleanupDue, loadCleanupTime; by rewrite HT1).
  assert (canceled (length (heap w)) (heap w1) = false) as Hfresh
    by (by rewrite Hheap1, canceled_new).
  apply tryCleanup_spec in Hsweep
    as ((HR & HB & HL & HT & HN) & (_ & Hlen & Hdl) & Hmap & Hcan);
    [|by apply (wf_gate _ _ Hwf1)].
  assert (expired now (resolution t) (heap w') (newEntry (heap w))
          = expired now (resolution t1) (heap w1) (newEntry (heap w))) as Hexp
    by (unfold expired; by rewrite Hdl, Hres).
  rewrite Hdue, Hres in *.
  split; [done|]. split; [lia|]. split; [|split; [|split]].
  - destruct gone eqn:Hgone; subst gone.
    + apply andb_true_iff in Hgone as [Hd He]. apply Hcan. right.
      split; [done|]. exists k, (newEntry (heap w)).
      rewrite <- Hexp. repeat split; try done. lia.
    + destruct (canceled (length (heap w)) (heap w')) eqn:Hc; [|done].
      apply Hcan in Hc as [?|(Hd & k0 & d0 & Hk0 & He & Hc & _)]; [congruence|].
      rewrite (wf_cancel _ _ Hwf1 _ _ Hk0) in Hc. injection Hc as Hc.
      assert (k0 = k) as -> by (by eapply (wf_inj _ _ Hwf1)).
      assert (d0 = newEntry (heap w)) as -> by congruence.
      rewrite Hd, Hexp, He in Hgone. done.
  - destruct gone eqn:Hgone; subst gone.
    + apply andb_true_iff in Hgone as [Hd He].
      destruct (lookupDeadline k t') as [d'|] eqn:Hk'; [|done].
      apply Hmap in Hk' as [Hk' Hne]. specialize (Hne Hd).
      assert (d' = newEntry (heap w)) as -> by congruence.
      rewrite Hexp in He. congruence.
    + apply Hmap. split; [done|]. intros Hd.
      rewrite Hd, Hexp in Hgone. done.
  - intros Hn. by apply HN1, HN.
  - rewrite HT. unfold nextCleanupTime, loadCleanupTime.
    by rewrite HT1, Hres.
Qed.

Lemma Cancel_loop (l : list (Z * deadline)) : forall hp,
  let hp' := foldl (fun hp e => callCancel (cancel e.2) hp) hp l in
  length hp' = length hp /\
  (forall h, Deadline_of h hp' = Deadline_of h hp) /\
  (forall h, canceled h hp' = true <->
     canceled h hp = true \/
     exists k d, (k, d) ∈ l /\ cancel d = cancelCtx h /\ (h < length hp)%nat).
Proof.
  induction l as [|[k0 d0] l IH]; intros hp; simpl.
  - split; [done|]. split; [done|]. intros h. split; [by left|].
    by intros [?|(? & ? & ?%elem_of_nil & _)].
  - destruct (IH (callCancel (cancel d0) hp)) as (Hlen & Hdl & Hcan).
    rewrite callCancel_length in *.
    split; [done|]. split.
    + intros h. by rewrite Hdl, Deadline_of_callCancel.
    + intros h. rewrite Hcan. destruct (cancel d0) as [h0] eqn:Hc0.
      rewrite canceled_callCancel. split.
      * intros [[?|[-> Hlt]]|(k & d & Hin & Hc & Hlt)].
        -- by left.
        -- right. exists k0, d0. split; [by left|done].
        -- right. exists k, d. split; [by right|done].
      * intros [?|(k & d & [[= -> ->]|Hin]%elem_of_cons & Hc & Hlt)].
        -- by left; left.
        -- left; right. split; [congruence|done].
        -- right. by exists k, d.
Qed.

(** [Cancel] calls the cancel function of every entry, and of nothing
    else, and leaves a nil map. *)
Lemma Cancel_spec w t w' t' :
  Cancel w t = (w', t') ->
  t' = setDeadlines None t /\
  jitterRand w' = jitterRand w /\
  length (heap w') = length (heap w) /\
  (forall h, Deadline_of h (heap w') = Deadline_of h (heap w)) /\
  (forall h, canceled h (heap w') = true <->
     canceled h (heap w) = true \/
     exists k d, lookupDeadline k t = Some d /\ cancel d = cancelCtx h /\
       (h < length (heap w))%nat).
Proof.
  unfold Cancel. intros [= <- <-]. simpl.
  destruct (Cancel_loop (entries t) (heap w)) as (Hlen & Hdl & Hcan).
  split; [done|]. split; [done|]. split; [done|]. split; [done|].
  intros h. rewrite Hcan.
  split; (intros [?|(k & d & Hin & Hrest)]; [by left|]);
    right; exists k, d; (split; [by apply elem_of_entries|done]).
Qed.

End CreatedEntry.

(** ** The deadline of the context a call returns *)

Section DeadlineWindow.

Context {G : Type} {RG : Rand G}.

(** C2, amended: on a Timeline with a positive resolution every call of
    [Context] returns a context whose deadline is the bucket boundary plus
    a jitter in [[0, r)], capped by the deadline of the Background context
    when that one is earlier. The deadline is thus always before the
    boundary plus the resolution; it is at or after the boundary when the
    Background has no deadline, as the default one. *)
Theorem Context_deadline_in_window r bg (w : World G) t at_ now :
  reachable r bg w t -> 0 < resolution t ->
  exists w' t' h dl j,
    Context at_ now w t = Ok (w', t', h) /\
    Deadline_of h (heap w') = (dl, true) /\
    0 <= j < resolution t /\
    dl = deadlineUnder (background t) (Add (Unix0 (keyOf t at_)) j) /\
    dl < keyOf t at_ + resolution t /\
    (parentDeadline (background t) = None ->
     dl = keyOf t at_ + j /\ keyOf t at_ <= dl).
Proof.
  intros [Hwf _]%reachable_wf Hr.
  destruct (Context_returns at_ now w t Hr) as (w' & t' & h & HOk).
  destruct (Context_post _ _ _ _ _ _ _ Hwf HOk)
    as (_ & _ & _ & _ & (j & Hj & Hdl) & _).
  exists w', t', h, (deadlineUnder (background t) (Add (Unix0 (keyOf t at_)) j)), j.
  split; [done|]. split; [done|]. split; [done|]. split; [done|]. split.
  - pose proof (deadlineUnder_le (background t) (Add (Unix0 (keyOf t at_)) j)).
    unfold Add, Unix0 in *. lia.
  - intros Hnone. rewrite deadlineUnder_None by done.
    unfold Add, Unix0. lia.
Qed.

End DeadlineWindow.

Lemma Context_deadline_in_window_witness :
  exists w' t' h dl j,
    Context 995 1000 {| heap := []; jitterRand := 0 |} (newTimeline 10 None)
      = Ok (w', t', h) /\
    Deadline_of h (heap w') = (dl, true) /\
    0 <= j < 10 /\
    dl = 1000 + j /\
    dl < 1000 + 10 /\
    (@None Time = None -> dl = 1000 + j /\ 1000 <= dl).
Proof.
  apply (Context_deadline_in_window 10 None
           {| heap := []; jitterRand := 0 |} (newTimeline 10 None) 995 1000).
  - apply reachable_new.
  - reflexivity.
Defined.

(** C2 as stated fails when the Background context carries a deadline
    earlier than the bucket: the context returned for the bucket 1000
    reports the Background's deadline, 500, which is before the bucket
    boundary. *)
Lemma Context_deadline_capped_by_Background :
  let t := newTimeline 10 (Some {| parentDeadline := Some 500; parentDone := false |}) in
  let w := {| heap := []; jitterRand := 0 |} in
  exists w' t',
    Context 1000 400 w t = Ok (w', t', 0%nat) /\
    keyOf t 1000 = 1000 /\
    Deadline_of 0 (heap w') = (500, true) /\
    ~ (exists j, 0 <= j < resolution t /\ 500 = keyOf t 1000 + j).
Proof.
  intros t w. eexists _, _. split; [vm_compute; reflexivity|].
  split; [reflexivity|]. split; [reflexivity|].
  intros (j & Hj & Heq).
  change (keyOf t 1000) with 1000 in Heq. lia.
Qed.

(** ** [Cancel], then [Context] *)

Section CancelThenContext.

Context {G : Type} {RG : Rand G}.

Implicit Types (w : World G) (t : Timeline) (d : deadline).

(** Calls of cancel functions leave what a context was born with. *)
Lemma bornDone_callCancel f h hp :
  bornDone h (callCancel f hp) = bornDone h hp.
Proof.
  destruct f as [h']. unfold bornDone, callCancel.
  destruct (decide (h' = h)) as [->|Hne].
  - rewrite list_lookup_alter_eq. by destruct (hp !! h).
  - by rewrite list_lookup_alter_ne.
Qed.

Lemma bornDone_new hp c : bornDone (length hp) (hp ++ [c]) = ctxBornDone c.
Proof. unfold bornDone. by rewrite lookup_app_r, Nat.sub_diag. Qed.

Lemma bornDone_cleanup_loop now r l : forall w t w' t',
  foldl (cleanupEntry now r) (w, t) l = (w', t') ->
  forall h, bornDone h (heap w') = bornDone h (heap w).
Proof.
  induction l as [|[k0 d0] l IH]; intros w t w' t' Hfold h.
  - simpl in Hfold. by simplify_eq.
  - change (foldl (cleanupEntry now r)
              (cleanupEntry now r (w, t) (k0, d0)) l = (w', t')) in Hfold.
    destruct (cleanupEntry now r (w, t) (k0, d0)) as [w1 t1] eqn:Hone.
    rewrite (IH _ _ _ _ Hfold h).
    unfold cleanupEntry in Hone.
    destruct (Deadline_of (context d0) (heap w)) as [dl ok].
    destruct (After now (Add dl r)); simplify_eq; [|done].
    simpl. apply bornDone_callCancel.
Qed.

Lemma bornDone_tryCleanup now w t w' t' :
  tryCleanup now w t = (w', t') ->
  forall h, bornDone h (heap w') = bornDone h (heap w).
Proof.
  unfold tryCleanup. intros Hsweep h.
  destruct (cleanupDue now t); [|by simplify_eq].
  destruct (tryLockCleanup t) as [[|] t1]; [|by simplify_eq].
  destruct (cleanup now w _) as [w3 t3] eqn:Hloop.
  simplify_eq. unfold cleanup in Hloop.
  by eapply bornDone_cleanup_loop.
Qed.

(** The context a missing call creates is born done exactly when the
    Background is done. *)
Lemma Context_miss_bornDone at_ now w t w' t' h :
  Context at_ now w t = Ok (w', t', h) ->
  lookupDeadline (keyOf t at_) t = None ->
  bornDone h (heap w') = parentDone (background t).
Proof.
  intros HOk Hk.
  pose proof (Context_Ok_miss_positive _ _ _ _ _ _ _ HOk Hk) as Hr.
  destruct (Context_miss at_ now w t Hk Hr)
    as (j & g' & w1 & t1 & _ & _ & Hcr & HOk').
  rewrite HOk in HOk'. injection HOk' as Hsweep ->. symmetry in Hsweep.
  rewrite (bornDone_tryCleanup _ _ _ _ _ Hsweep).
  unfold created in Hcr. injection Hcr as <- <-. simpl.
  by rewrite bornDone_new.
Qed.

(** C7, amended: [Cancel] calls the cancel function of every entry and
    leaves a nil map; the next call of [Context] allocates the map again
    and returns a context that did not exist before. The cancel function
    of that context has been called when the call returns exactly when the
    call found a sweep due and its [now] strictly after the new deadline
    plus one resolution: its own sweep has then cancelled and removed it.
    The context is cancelled when the call returns exactly when that is so
    or the Background was already done (a context derived from a done
    parent is cancelled from the start). With [now] no later than the new
    deadline plus one resolution, the new context is the entry of its
    bucket, and with a Background that is not done it is not cancelled. *)
Theorem Cancel_then_Context r bg w t w1 t1 :
  reachable r bg w t -> 0 < resolution t -> Cancel w t = (w1, t1) ->
  (forall k d, lookupDeadline k t = Some d ->
     canceled (context d) (heap w1) = true) /\
  deadlines t1 = None /\
  forall at_ now, exists w2 t2 h,
    Context at_ now w1 t1 = Ok (w2, t2, h) /\
    deadlines t2 <> None /\
    h = length (heap w1) /\
    (forall k d, lookupDeadline k t = Some d -> context d <> h) /\
    canceled h (heap w2)
      = cleanupDue now t &&
        expired now (resolution t) (heap w2) (newEntry (heap w1)) /\
    isDone h (heap w2)
      = cleanupDue now t &&
        expired now (resolution t) (heap w2) (newEntry (heap w1))
        || parentDone (background t) /\
    (now <= Add (Deadline_of h (heap w2)).1 (resolution t) ->
     canceled h (heap w2) = false /\
     isDone h (heap w2) = parentDone (background t) /\
     lookupDeadline (keyOf t at_) t2 = Some (newEntry (heap w1))).
Proof.
  intros [Hwf _]%reachable_wf Hr HC.
  pose proof (wf_Cancel _ _ _ _ Hwf HC) as Hwf1.
  apply Cancel_spec in HC as (-> & _ & Hlen & _ & Hcan).
  split; [|split; [done|]].
  - intros k d Hk. apply Hcan. right. exists k, d.
    split; [done|]. split; [by eapply (wf_cancel _ _ Hwf)|].
    by eapply (wf_alloc _ _ Hwf).
  - intros at_ now.
    set (t1 := setDeadlines None t) in *.
    destruct (Context_returns at_ now w1 t1 Hr) as (w2 & t2 & h & HOk).
    exists w2, t2, h. split; [done|].
    pose proof (Context_miss_bornDone _ _ _ _ _ _ _ HOk eq_refl) as Hborn.
    destruct (Context_miss_post _ _ _ _ _ _ _ Hwf1 HOk eq_refl)
      as (-> & _ & Hgone & Hentry & Hmap & _).
    change (cleanupDue now t1) with (cleanupDue now t) in *.
    change (resolution t1) with (resolution t) in *.
    change (keyOf t1 at_) with (keyOf t at_) in *.
    change (background t1) with (background t) in *.
    split; [done|]. split; [done|]. split; [|split; [done|split]].
    + intros k d Hk%(wf_alloc _ _ Hwf). lia.
    + unfold isDone. by rewrite Hgone, Hborn.
    + intros Hle.
      assert (expired now (resolution t) (heap w2) (newEntry (heap w1)) = false)
        as Hexp by (by apply expired_false).
      rewrite Hexp, andb_false_r in *.
      split; [done|]. split; [|done].
      unfold isDone. by rewrite Hgone, Hborn.
Qed.

End CancelThenContext.

(** A Timeline that holds the entry of one bucket is cancelled; the next
    call returns the second context of the heap, in a new map. *)
Lemma Cancel_then_Context_witness :
  let w0 := {| heap := []; jitterRand := 0 |} in
  let t0 := newTimeline 10 None in
  let s := match Context 2000 1000 w0 t0 with
           | Ok (w, t, _) => (w, t)
           | Panic => (w0, t0)
           end in
  lookupDeadline 2000 s.2 = Some (newEntry []) /\
  exists w1 t1,
    Cancel s.1 s.2 = (w1, t1) /\
    canceled 0 (heap w1) = true /\
    exists w2 t2 h,
      Context 3000 1000 w1 t1 = Ok (w2, t2, h) /\
      deadlines t2 <> None /\ h = length (heap w1) /\
      isDone h (heap w2) = false.
Proof.
  intros w0 t0 s.
  assert (reachable 10 None s.1 s.2) as Hreach.
  { apply (reachable_call 10 None (CallContext 2000 1000) w0 t0 _ _
             (Some 0%nat)).
    - apply reachable_new.
    - vm_compute. reflexivity. }
  split; [vm_compute; reflexivity|].
  exists (Cancel s.1 s.2).1, (Cancel s.1 s.2).2.
  split; [apply surjective_pairing|].
  destruct (Cancel_then_Context 10 None s.1 s.2 _ _ Hreach eq_refl
              (surjective_pairing _)) as (Hall & _ & Hnext).
  split.
  - apply (Hall 2000 (newEntry [])). vm_compute. reflexivity.
  - destruct (Hnext 3000 1000)
      as (w2 & t2 & h & HOk & Hmap & Hh & _ & _ & Hdone & _).
    exists w2, t2, h. split; [exact HOk|]. split; [exact Hmap|].
    split; [exact Hh|]. rewrite Hdone.
    assert (cleanupDue 1000 s.2 = false) as -> by (vm_compute; reflexivity).
    vm_compute. reflexivity.
Defined.

(** C7 as stated fails in two ways. When the call after [Cancel] asks for
    an instant more than a resolution before its [now], and a sweep is due
    (as on a Timeline whose due time is still near the epoch), the sweep
    of that call cancels the context the call has just created and
    removes its entry: the context returned is cancelled. Here the
    Timeline is the zero value and holds the entry of one bucket when it
    is cancelled; the instant asked for next is 7000000000 seconds after
    the epoch, and [now] a thousand seconds later. And when the Background
    is already done, the context returned is cancelled from the start,
    though [now] is before the instant asked for and no cancel function is
    called; its entry stays in the map. *)
Lemma Cancel_then_Context_swept :
  let w0 := {| heap := []; jitterRand := 0 |} in
  let at_ := Unix0 (7000000000 * Second) in
  let now := Unix0 (7000001000 * Second) in
  (let t0 := newTimeline 0 None in
   let s := match Context at_ at_ w0 t0 with
            | Ok (w, t, _) => (w, t)
            | Panic => (w0, t0)
            end in
   lookupDeadline (keyOf t0 at_) s.2 = Some (newEntry []) /\
   exists w2 t2 h,
     Context at_ now (Cancel s.1 s.2).1 (Cancel s.1 s.2).2 = Ok (w2, t2, h) /\
     h = 1%nat /\
     canceled h (heap w2) = true /\
     isDone h (heap w2) = true /\
     lookupDeadline (keyOf t0 at_) t2 = None) /\
  (let t0 := newTimeline 0 (Some {| parentDeadline := None;
                                    parentDone := true |}) in
   exists w2 t2 h,
     Context now at_ (Cancel w0 t0).1 (Cancel w0 t0).2 = Ok (w2, t2, h) /\
     canceled h (heap w2) = false /\
     isDone h (heap w2) = true /\
     lookupDeadline (keyOf t0 now) t2 = Some (newEntry [])).
Proof.
  intros w0 at_ now. split.
  - intros t0 s. split; [vm_compute; reflexivity|].
    eexists _, _, _. split; [vm_compute; reflexivity|].
    split; [reflexivity|]. repeat split; vm_compute; reflexivity.
  - intros t0. eexists _, _, _. split; [vm_compute; reflexivity|].
    repeat split; vm_compute; reflexivity.
Qed.

(** ** Two calls for the same bucket, two calls for different buckets *)

Section SameBucket.

Context {G : Type} {RG : Rand G}.

Implicit Types (w : World G) (t : Timeline) (d : deadline).

Lemma keyOf_Resolution t t' at_ :
  Resolution t' = Resolution t -> keyOf t' at_ = keyOf t at_.
Proof. unfold keyOf, resolution. by intros ->. Qed.

Lemma steps_start P w t cs w' t' : steps P w t cs w' t' -> P w t.
Proof. by destruct 1. Qed.

Lemma steps_wf P w t cs w' t' :
  steps P w t cs w' t' -> wf w t ->
  wf w' t' /\ Resolution t' = Resolution t.
Proof.
  induction 1 as [|c cs w t w1 t1 o w' t' _ Hcall _ IH]; [done|].
  intros Hwf. apply perform_wf in Hcall as (Hwf1 & HR & _); [|done].
  destruct (IH Hwf1) as [? ?]. split; [done|congruence].
Qed.

Lemma issuedFor_Context at_ now w t w' t' h :
  wf w t -> Context at_ now w t = Ok (w', t', h) ->
  issuedFor h (keyOf t at_) w' t'.
Proof.
  intros Hwf HOk.
  apply Context_post in HOk as (_ & _ & (_ & Hlt & _) & _ & _ & Hiff & _);
    [|done].
  split; [done|]. intros k d Hk Hctx. by apply (Hiff k d).
Qed.

Lemma issuedFor_perform h0 k0 c w t w' t' o :
  wf w t -> issuedFor h0 k0 w t -> perform c w t = Ok (w', t', o) ->
  issuedFor h0 k0 w' t'.
Proof.
  intros Hwf [Hlt Honly]
    [(-> & HC & ->)|(at_ & now & h & _ & HOk & ->)]%perform_inv.
  - apply Cancel_spec in HC as (-> & _ & Hlen & _). split; [lia|done].
  - apply Context_post in HOk
      as (_ & _ & (Hlen & _ & _) & Hh & _ & Hiff & Hold & _); [|done].
    split; [lia|]. intros k d Hk Hctx.
    destruct (decide (k = keyOf t at_)) as [->|Hne].
    + pose proof (proj1 (Hiff _ _ Hk) eq_refl) as Hdh.
      rewrite Hctx in Hdh. subst h.
      destruct (lookupDeadline (keyOf t at_) t) as [d0|] eqn:Hk0.
      * destruct Hh as (Hh & _ & _). eapply Honly; [exact Hk0|done].
      * lia.
    + eapply Honly; [|done]. by apply Hold.
Qed.

Lemma issuedFor_steps h0 k0 P w t cs w' t' :
  steps P w t cs w' t' -> wf w t -> issuedFor h0 k0 w t ->
  issuedFor h0 k0 w' t'.
Proof.
  induction 1 as [|c cs w t w1 t1 o w' t' _ Hcall _ IH]; [done|].
  intros Hwf Hiss. apply IH.
  - by apply perform_wf in Hcall as (? & _).
  - by eapply issuedFor_perform.
Qed.

(** An entry is never replaced: while its key stays in the map, the entry
    is the same. *)
Lemma entry_kept k d w t cs w' t' :
  steps (fun _ t0 => is_Some (lookupDeadline k t0)) w t cs w' t' ->
  wf w t -> lookupDeadline k t = Some d -> lookupDeadline k t' = Some d.
Proof.
  induction 1 as [|c cs w t w1 t1 o w' t' _ Hcall Hrest IH]; [done|].
  intros Hwf Hk. apply IH.
  - by apply perform_wf in Hcall as (? & _).
  - destruct (steps_start _ _ _ _ _ _ Hrest) as [d1 Hk1].
    apply perform_inv in Hcall
      as [(-> & HC & ->)|(at_ & now & h & _ & HOk & ->)].
    + apply Cancel_spec in HC as (-> & _). done.
    + apply Context_post in HOk as (_ & _ & _ & _ & _ & _ & _ & Hsame);
        [|done].
      by rewrite (Hsame _ _ _ Hk Hk1) in Hk1.
Qed.

(** C1, amended: a call for the bucket of an earlier call returns the
    context of that earlier call when the entry of the bucket has stayed in
    the map in between, whatever calls were made; it has stayed through
    the earlier call itself when that call hit the cache, found no sweep
    due, or had its [now] no later than the deadline plus one resolution.
    If the entry is gone the later call returns another context. Two calls
    for different buckets return different contexts, whatever happened in
    between. ([Timeout] and [Deadline] are calls of [Context]:
    [Timeout_Context], [Deadline_Context].) *)
Theorem same_bucket_same_context r bg (w : World G) t
    at1 now1 w1 t1 h1 cs w2 t2 at2 now2 w3 t3 h2 :
  reachable r bg w t ->
  Context at1 now1 w t = Ok (w1, t1, h1) ->
  steps (fun _ _ => True) w1 t1 cs w2 t2 ->
  Context at2 now2 w2 t2 = Ok (w3, t3, h2) ->
  (keyOf t at1 = keyOf t at2 ->
   (steps (fun _ t0 => is_Some (lookupDeadline (keyOf t at1) t0))
      w1 t1 cs w2 t2 -> h2 = h1) /\
   (lookupDeadline (keyOf t at2) t2 = None -> h2 <> h1)) /\
  (keyOf t at1 <> keyOf t at2 -> h2 <> h1) /\
  (is_Some (lookupDeadline (keyOf t at1) t) \/ cleanupDue now1 t = false \/
   now1 <= Add (Deadline_of h1 (heap w1)).1 (resolution t) ->
   is_Some (lookupDeadline (keyOf t at1) t1)).
Proof.
  intros [Hwf _]%reachable_wf HOk1 Hsteps HOk2.
  pose proof (issuedFor_Context _ _ _ _ _ _ _ Hwf HOk1) as Hiss1.
  pose proof (Context_post _ _ _ _ _ _ _ Hwf HOk1)
    as (Hwf1 & [HR1 _] & _ & Hh1 & _ & Hiff1 & _).
  destruct (steps_wf _ _ _ _ _ _ Hsteps Hwf1) as [Hwf2 HR2].
  pose proof (issuedFor_steps _ _ _ _ _ _ _ _ Hsteps Hwf1 Hiss1)
    as [Hlt2 Honly2].
  assert (keyOf t2 at2 = keyOf t at2) as Hkey2
    by (apply keyOf_Resolution; congruence).
  pose proof (Context_post _ _ _ _ _ _ _ Hwf2 HOk2)
    as (_ & _ & _ & Hh2 & _).
  rewrite Hkey2 in Hh2.
  split; [|split].
  - intros Hsame. split.
    + intros Hkept.
      destruct (steps_start _ _ _ _ _ _ Hkept) as [d Hk1].
      pose proof (entry_kept _ _ _ _ _ _ _ Hkept Hwf1 Hk1) as Hk2.
      rewrite <- Hsame, Hk2 in Hh2. destruct Hh2 as (-> & _).
      apply (Hiff1 _ _ Hk1). by apply keyOf_Resolution.
    + intros Hnone. rewrite Hnone in Hh2. lia.
  - intros Hdiff.
    destruct (lookupDeadline (keyOf t at2) t2) as [d|] eqn:Hk2.
    + destruct Hh2 as (-> & _). intros Heq. apply Hdiff. symmetry.
      by eapply Honly2.
    + lia.
  - intros Hcases.
    destruct (lookupDeadline (keyOf t at1) t) as [d|] eqn:Hk.
    + destruct Hh1 as (_ & _ & ->). by rewrite Hk.
    + destruct (Context_miss_post _ _ _ _ _ _ _ Hwf HOk1 Hk)
        as (Hh & _ & _ & Hentry & _).
      rewrite Hentry.
      destruct Hcases as [[? ?]|[Hdue|Hle]]; [done|by rewrite Hdue|].
      assert (expired now1 (resolution t) (heap w1) (newEntry (heap w)) = false)
        as -> by (apply expired_false; simpl; by rewrite <- Hh).
      by rewrite andb_false_r.
Qed.

End SameBucket.

Lemma same_bucket_same_context_witness :
  let w := {| heap := []; jitterRand := 0 |} in
  let t := newTimeline 10 None in
  exists w1 t1 h1 w2 t2 h2,
    Context 995 1000 w t = Ok (w1, t1, h1) /\
    Context 998 1001 w1 t1 = Ok (w2, t2, h2) /\
    h2 = h1.
Proof.
  intros w t.
  pose (w1 := {| heap := [{| ctxDeadline := 1000; ctxCanceled := false;
                              ctxBornDone := false |}];
                 jitterRand := 1 |}).
  pose (t1 := {| Resolution := 10; Background := None;
                 deadlines := Some (<[1000 := newEntry []]> ∅);
                 cleanupLock := 0; cleanupTime := 1000 |}).
  assert (Context 995 1000 w t = Ok (w1, t1, 0%nat)) as HOk1
    by (vm_compute; reflexivity).
  assert (Context 998 1001 w1 t1 = Ok (w1, t1, 0%nat)) as HOk2
    by (vm_compute; reflexivity).
  exists w1, t1, 0%nat, w1, t1, 0%nat.
  split; [exact HOk1|]. split; [exact HOk2|].
  apply (same_bucket_same_context 10 None w t 995 1000 w1 t1 0%nat []
           w1 t1 998 1001 w1 t1 0%nat (reachable_new 10 None w) HOk1
           (steps_nil _ _ _ I) HOk2).
  - reflexivity.
  - apply steps_nil. eexists. reflexivity.
Defined.

(** C1 as stated fails for two calls in a row that ask for the same
    instant, more than a resolution before [now]: on a Timeline that has
    never swept, each call creates the entry and sweeps it away again, so
    the second call returns another context than the first. Here the
    Timeline is the zero value, the instant one second after the epoch and
    [now] a thousand seconds after it. *)
Lemma same_bucket_other_context :
  let t := newTimeline 0 None in
  let w := {| heap := []; jitterRand := 0 |} in
  exists w1 t1 h1 w2 t2 h2,
    Deadline (Unix0 (1000 * Second)) (Unix0 Second) w t = Ok (w1, t1, h1) /\
    Deadline (Unix0 (1000 * Second)) (Unix0 Second) w1 t1 = Ok (w2, t2, h2) /\
    h2 <> h1.
Proof.
  eexists _, _, _, _, _, _. split; [vm_compute; reflexivity|].
  split; [vm_compute; reflexivity|]. discriminate.
Qed.

(** ** The cadence of the sweep *)

Section SweepCadence.

Context {G : Type} {RG : Rand G}.

Implicit Types (w : World G) (t : Timeline) (d : deadline).

(** The due time read back by [loadCleanupTime] is never the zero
    [time.Time]: that instant is not an [int64] of nanoseconds. *)
Lemma IsZero_loadCleanupTime t :
  Int64.in_range (cleanupTime t) -> IsZero (loadCleanupTime t) = false.
Proof.
  unfold Int64.in_range, Int64.min_int64, IsZero, loadCleanupTime, Unix0,
    zeroTime.
  intros Hrange. apply Z.eqb_neq. lia.
Qed.

Lemma cleanupDue_lt now t :
  Int64.in_range (cleanupTime t) ->
  cleanupDue now t = true <-> cleanupTime t < now.
Proof.
  intros Hrange. unfold cleanupDue.
  rewrite IsZero_loadCleanupTime by done. simpl.
  unfold Before, loadCleanupTime, Unix0. apply Z.ltb_lt.
Qed.

Lemma sweeps_due at_ now w t :
  wf w t -> sweeps at_ now t = true ->
  lookupDeadline (keyOf t at_) t = None /\ cleanupTime t < now.
Proof.
  intros Hwf. unfold sweeps, fastPath.
  destruct (lookupDeadline (keyOf t at_) t); [done|].
  intros [Hdue _]%andb_true_iff. split; [done|].
  apply cleanupDue_lt; [by apply (wf_time _ _ Hwf)|done].
Qed.

Lemma not_due_no_sweep at_ now w t :
  wf w t -> now <= cleanupTime t -> sweeps at_ now t = false.
Proof.
  intros Hwf Hle. destruct (sweeps at_ now t) eqn:Hs; [|done].
  apply (sweeps_due _ _ w) in Hs as [_ ?]; [lia|done].
Qed.

(** A call that does not sweep removes and cancels nothing. *)
Lemma Context_no_sweep at_ now w t w' t' h :
  wf w t -> Context at_ now w t = Ok (w', t', h) ->
  sweeps at_ now t = false ->
  cleanupTime t' = cleanupTime t /\
  (forall k d, lookupDeadline k t = Some d -> lookupDeadline k t' = Some d) /\
  (forall h0, canceled h0 (heap w') = canceled h0 (heap w)).
Proof.
  intros Hwf HOk Hs. unfold sweeps, fastPath in Hs.
  destruct (lookupDeadline (keyOf t at_) t) as [d|] eqn:Hk.
  - rewrite (Context_hit _ _ _ _ _ Hk) in HOk. by injection HOk as <- <- <-.
  - rewrite (wf_gate _ _ Hwf) in Hs. simpl in Hs. rewrite andb_true_r in Hs.
    pose proof (Context_Ok_miss_positive _ _ _ _ _ _ _ HOk Hk) as Hr.
    destruct (Context_miss at_ now w t Hk Hr)
      as (j & g' & w1 & t1 & Hj & _ & Hcr & HOk').
    rewrite HOk in HOk'. injection HOk' as Hsweep ->.
    apply created_spec in Hcr
      as (Hwf1 & Hheap1 & _ & (HR1 & HB1 & HL1 & HT1 & HN1) & Hmap1);
      [|done..].
    assert (cleanupDue now t1 = false) as Hdue
      by (unfold cleanupDue, loadCleanupTime in *; by rewrite HT1).
    unfold tryCleanup in Hsweep. rewrite Hdue in Hsweep.
    injection Hsweep as -> ->.
    split; [done|]. split.
    + intros k d Hkd. apply Hmap1. case_decide; [congruence|done].
    + intros h0. rewrite Hheap1. unfold canceled.
      destruct (decide (h0 < length (heap w))%nat) as [Hlt|Hge].
      * by rewrite lookup_app_l.
      * rewrite (proj2 (lookup_ge_None (heap w) h0)) by lia.
        destruct (decide (h0 = length (heap w))) as [->|Hne].
        -- by rewrite lookup_app_r, Nat.sub_diag.
        -- rewrite (proj2 (lookup_ge_None _ h0)); [done|].
           rewrite length_app. simpl. lia.
Qed.

(** A call that sweeps publishes the due time it found plus a hundred
    resolutions. *)
Lemma Context_sweep_republishes at_ now w t w' t' h :
  wf w t -> Context at_ now w t = Ok (w', t', h) ->
  sweeps at_ now t = true ->
  cleanupTime t' =
  Int64.wrap (cleanupTime t + Int64.mul 100 (resolution t)).
Proof.
  intros Hwf HOk Hs. unfold sweeps, fastPath in Hs.
  destruct (lookupDeadline (keyOf t at_) t) as [d|] eqn:Hk; [done|].
  apply andb_true_iff in Hs as [Hdue _].
  destruct (Context_miss_post _ _ _ _ _ _ _ Hwf HOk Hk)
    as (_ & _ & _ & _ & _ & HT).
  by rewrite Hdue in HT.
Qed.

Lemma perform_not_due c w t w' t' o :
  wf w t -> perform c w t = Ok (w', t', o) ->
  (forall now, clockOf c = Some now -> now <= cleanupTime t) ->
  cleanupTime t' = cleanupTime t.
Proof.
  intros Hwf Hcall Hclock.
  destruct c as [at_ now|clock timeout|clock dl|]; simpl in Hcall.
  - destruct (Context at_ now w t) as [[[w1 t1] h]|] eqn:HOk; [|done].
    injection Hcall as <- <- <-.
    eapply Context_no_sweep; [done..|].
    eapply not_due_no_sweep; [done|]. by apply Hclock.
  - unfold Timeout in Hcall.
    destruct (Context _ clock w t) as [[[w1 t1] h]|] eqn:HOk; [|done].
    injection Hcall as <- <- <-.
    eapply Context_no_sweep; [done..|].
    eapply not_due_no_sweep; [done|]. by apply Hclock.
  - unfold Deadline in Hcall.
    destruct (Context dl clock w t) as [[[w1 t1] h]|] eqn:HOk; [|done].
    injection Hcall as <- <- <-.
    eapply Context_no_sweep; [done..|].
    eapply not_due_no_sweep; [done|]. by apply Hclock.
  - unfold Cancel in Hcall. by injection Hcall as <- <- <-.
Qed.

(** Calls whose clock has not passed the due time leave it as it is. *)
Lemma steps_not_due D w t cs w' t' :
  steps (fun _ _ => True) w t cs w' t' -> wf w t ->
  cleanupTime t = D ->
  (forall c now, c ∈ cs -> clockOf c = Some now -> now <= D) ->
  steps (fun _ t0 => cleanupTime t0 = D) w t cs w' t'.
Proof.
  induction 1 as [|c cs w t w1 t1 o w' t' _ Hcall _ IH];
    intros Hwf HD Hclock.
  - by apply steps_nil.
  - eapply steps_cons; [done|done|].
    apply IH.
    + by apply perform_wf in Hcall as (? & _).
    + rewrite <- HD. eapply perform_not_due; [done..|].
      intros now Hc. rewrite HD. eapply Hclock; [by left|done].
    + intros c' now Hin. apply Hclock. by right.
Qed.

Lemma steps_last P w t cs w' t' : steps P w t cs w' t' -> P w' t'.
Proof. by induction 1. Qed.

(** C3, amended: a call sweeps only when the due time is strictly before
    its [now], and it then publishes the due time it found plus a hundred
    resolutions, not its [now] plus a hundred resolutions. A call that
    does not sweep removes and cancels nothing. Once the published due
    time has caught up with the clock, no call sweeps until the clock has
    passed it: through any calls whose clock is at or before the due time,
    the due time stays, and a call that sweeps after them has its clock
    strictly after it. *)
Theorem sweep_cadence r bg (w : World G) t at1 now1 w1 t1 h1 :
  reachable r bg w t ->
  Context at1 now1 w t = Ok (w1, t1, h1) ->
  (sweeps at1 now1 t = true ->
   cleanupTime t < now1 /\
   cleanupTime t1 =
     Int64.wrap (cleanupTime t + Int64.mul 100 (resolution t)) /\
   (Int64.in_range (100 * resolution t) ->
    cleanupTime t + 100 * resolution t <= Int64.max_int64 ->
    cleanupTime t1 = Add (loadCleanupTime t) (100 * resolution t))) /\
  (sweeps at1 now1 t = false ->
   cleanupTime t1 = cleanupTime t /\
   (forall k d, lookupDeadline k t = Some d -> lookupDeadline k t1 = Some d) /\
   (forall h0, canceled h0 (heap w1) = canceled h0 (heap w))) /\
  (forall cs w2 t2,
     steps (fun _ _ => True) w1 t1 cs w2 t2 ->
     (forall c now, c ∈ cs -> clockOf c = Some now -> now <= cleanupTime t1) ->
     steps (fun _ t0 => cleanupTime t0 = cleanupTime t1) w1 t1 cs w2 t2 /\
     forall at2 now2, sweeps at2 now2 t2 = true -> cleanupTime t1 < now2).
Proof.
  intros [Hwf _]%reachable_wf HOk.
  pose proof (Context_post _ _ _ _ _ _ _ Hwf HOk) as (Hwf1 & _).
  split; [|split].
  - intros Hs.
    pose proof (sweeps_due _ _ _ _ Hwf Hs) as [_ Hdue].
    pose proof (Context_sweep_republishes _ _ _ _ _ _ _ Hwf HOk Hs) as HT.
    split; [done|]. split; [done|].
    intros Hmul Hmax. rewrite HT. unfold Int64.mul.
    rewrite (wrap_in_range _ Hmul).
    unfold Add, loadCleanupTime, Unix0. apply wrap_in_range.
    pose proof (wf_time _ _ Hwf) as Ht.
    unfold Int64.in_range, Int64.min_int64, Int64.max_int64 in *.
    split; [|lia].
    pose proof (sweeps_due _ _ _ _ Hwf Hs) as [Hk _].
    pose proof (Context_Ok_miss_positive _ _ _ _ _ _ _ HOk Hk). lia.
  - intros Hs. by eapply Context_no_sweep.
  - intros cs w2 t2 Hsteps Hclock.
    pose proof (steps_not_due _ _ _ _ _ _ Hsteps Hwf1 eq_refl Hclock) as Hkept.
    split; [done|]. intros at2 now2 Hs.
    destruct (steps_wf _ _ _ _ _ _ Hsteps Hwf1) as [Hwf2 _].
    apply (sweeps_due _ _ w2) in Hs as [_ Hdue]; [|done].
    by rewrite (steps_last _ _ _ _ _ _ Hkept) in Hdue.
Qed.

End SweepCadence.

Lemma sweep_cadence_witness :
  let w := {| heap := []; jitterRand := 0 |} in
  let t := newTimeline 10 None in
  exists w1 t1 h1,
    Context 995 1000 w t = Ok (w1, t1, h1) /\
    cleanupTime t < 1000 /\ cleanupTime t1 = 1000 /\
    forall at2 now2, sweeps at2 now2 t1 = true -> 1000 < now2.
Proof.
  intros w t.
  pose (w1 := {| heap := [{| ctxDeadline := 1000; ctxCanceled := false;
                              ctxBornDone := false |}];
                 jitterRand := 1 |}).
  pose (t1 := {| Resolution := 10; Background := None;
                 deadlines := Some (<[1000 := newEntry []]> ∅);
                 cleanupLock := 0; cleanupTime := 1000 |}).
  assert (Context 995 1000 w t = Ok (w1, t1, 0%nat)) as HOk
    by (vm_compute; reflexivity).
  destruct (sweep_cadence 10 None w t 995 1000 w1 t1 0%nat
              (reachable_new 10 None w) HOk) as (Hsweep & _ & Hlater).
  destruct (Hsweep eq_refl) as (Hdue & Hnext & _).
  exists w1, t1, 0%nat. split; [exact HOk|]. split; [exact Hdue|].
  split; [reflexivity|].
  destruct (Hlater [] w1 t1 (steps_nil _ _ _ I)) as [_ Hnone].
  - intros c now Hin. by apply elem_of_nil in Hin.
  - exact Hnone.
Defined.

(** C3 as stated fails while the due time is far behind the clock, as it
    is on a Timeline that has never swept, whose due time is the epoch:
    two calls one nanosecond apart both sweep, and each only moves the due
    time a hundred resolutions on from the epoch. Here the Timeline is the
    zero value (100ms), the first call is at a thousand seconds after the
    epoch, and the second one nanosecond later. *)
Lemma two_sweeps_in_one_window :
  let t := newTimeline 0 None in
  let w := {| heap := []; jitterRand := 0 |} in
  let now1 := Unix0 (1000 * Second) in
  let now2 := Add now1 1 in
  exists w1 t1 h1 w2 t2 h2,
    Timeout now1 (1 * Second) w t = Ok (w1, t1, h1) /\
    sweeps (Add now1 (1 * Second)) now1 t = true /\
    Timeout now2 (2 * Second) w1 t1 = Ok (w2, t2, h2) /\
    sweeps (Add now2 (2 * Second)) now2 t1 = true /\
    now2 - now1 < 100 * resolution t /\
    cleanupTime t = 0 /\ cleanupTime t1 = 10 * Second /\
    cleanupTime t2 = 20 * Second.
Proof.
  eexists _, _, _, _, _, _.
  split; [vm_compute; reflexivity|]. split; [reflexivity|].
  split; [vm_compute; reflexivity|]. split; [reflexivity|].
  split; [reflexivity|]. split; [reflexivity|]. split; reflexivity.
Qed.

(** ** Concurrent calls for one bucket *)

Section OneContextPerBucket.

Context {G : Type} {RG : Rand G}.

Implicit Types (w : World G) (t : Timeline) (d : deadline).
Implicit Types (s : Shared G) (g : goroutine) (c : Config G).

Lemma deadlineUnder_mono parent x y :
  x <= y -> deadlineUnder parent x <= deadlineUnder parent y.
Proof.
  unfold deadlineUnder, Before. intros Hxy.
  destruct (parentDeadline parent) as [cur|]; [|done].
  destruct (Z.ltb_spec cur x), (Z.ltb_spec cur y); lia.
Qed.

(** What the slow path has done when it returns. *)
Lemma lookupOrCreate_Ok k bg e r w t w' t' d :
  lookupOrCreate k bg e r w t = Ok (w', t', d) ->
  match lookupDeadline k t with
  | Some d0 => w' = w /\ t' = t /\ d = d0
  | None =>
      0 < r /\ exists j (rg : G), 0 <= j < r /\
        w' = {| heap := heap w ++
                  [{| ctxDeadline := deadlineUnder bg (Add e j);
                      ctxCanceled := false;
                      ctxBornDone := parentDone bg |}];
                jitterRand := rg |} /\
        t' = setDeadlines (Some (<[k := newEntry (heap w)]> (mapOf t))) t /\
        d = newEntry (heap w)
  end.
Proof.
  destruct (lookupDeadline k t) as [d0|] eqn:Hk.
  - rewrite (lookupOrCreate_hit _ _ _ _ _ _ _ Hk). by intros [= <- <- <-].
  - destruct (Z_lt_le_dec 0 r) as [Hr|Hr].
    + destruct (lookupOrCreate_miss k bg e r w t Hk Hr)
        as (j & rg & Hj & _ & ->).
      intros [= <- <- <-]. split; [done|]. by exists j, rg.
    + unfold lookupOrCreate. rewrite Hk. unfold jitterTime, jitter.
      by rewrite Int63n_nonpositive.
Qed.

Lemma goroutine_ok_frame k t t' g :
  Resolution t' = Resolution t ->
  (forall d, lookupDeadline k t = Some d -> lookupDeadline k t' = Some d) ->
  goroutine_ok k t g -> goroutine_ok k t' g.
Proof.
  intros HR Hkeep. unfold goroutine_ok, keeps.
  rewrite (keyOf_Resolution t t' _ HR).
  destruct (g_pc g); naive_solver.
Qed.

Lemma madeFor_app k w t mk e :
  madeFor k {| world := w; timeline := t; made := mk ++ [e] |} =
  madeFor k {| world := w; timeline := t; made := mk |} ++
  (if decide (e.1 = k) then [e] else []).
Proof.
  unfold madeFor. simpl. by rewrite filter_app.
Qed.

(** A step that leaves the heap as it is has allocated nothing, and the
    slow path that appends a context has allocated that one. *)
Lemma allocated_same k hp : allocated k hp hp = [].
Proof. unfold allocated. by rewrite Nat.sub_diag. Qed.

Lemma allocated_one k hp (x : ctxState) :
  allocated k hp (hp ++ [x]) = [(k, length hp)].
Proof.
  unfold allocated. rewrite length_app. simpl.
  by replace (length hp + 1 - length hp)%nat with 1%nat by lia.
Qed.

(** One step of one goroutine keeps what holds of the shared state and of
    the goroutine, and never takes the entry of [k] away. *)
Lemma advance_safe k t0 m s g s' g' :
  shared_ok k t0 s ->
  g_now g <= graceBound k t0 ->
  goroutine_ok k (timeline s) g ->
  advance m s g = Some (s', g') ->
  shared_ok k t0 s' /\
  Resolution (timeline s') = Resolution (timeline s) /\
  (forall d, lookupDeadline k (timeline s) = Some d ->
             lookupDeadline k (timeline s') = Some d) /\
  g_now g' = g_now g /\
  goroutine_ok k (timeline s') g'.
Proof.
  destruct s as [w t mk], g as [at_ now p].
  intros (HR & HB & Hentry) Hnow Hok. simpl in *.
  assert (resolution t = resolution t0) as Hres
    by (unfold resolution; by rewrite HR).
  assert (background t = background t0) as Hbg
    by (unfold background; by rewrite HB).
  unfold advance, goroutine_ok, keeps in *. simpl in *.
  destruct p as [|k0|d|d ct|d ct|d|d k' d'|d k'|d|h], m as [|k1|];
    try done; simpl in *.
  - (* the fast path *)
    unfold fastPath.
    destruct (lookupDeadline (keyOf t at_) t) as [d|] eqn:Hk;
      intros [= <- <-]; simpl; (split; [done|]); repeat (split; [done|]).
    + intros <-. by exists d.
    + done.
  - (* the slow path *)
    destruct (lookupOrCreate _ _ _ _ _ _) as [[[w' t'] d]|] eqn:HOk; [|done].
    intros [= <- <-]. simpl. subst k0.
    apply lookupOrCreate_Ok in HOk.
    destruct (lookupDeadline (keyOf t at_) t) as [d0|] eqn:Hk.
    + destruct HOk as (-> & -> & ->).
      rewrite allocated_same, app_nil_r.
      split; [done|]. repeat (split; [done|]). intros <-. done.
    + destruct HOk as (Hr & j & g0 & Hj & -> & -> & ->).
      simpl. rewrite allocated_one.
      assert (forall k2, lookupDeadline k2
                (setDeadlines (Some (<[keyOf t at_ := newEntry (heap w)]> (mapOf t))) t)
              = if decide (keyOf t at_ = k2) then Some (newEntry (heap w))
                else lookupDeadline k2 t) as Hins
        by (intros; apply lookupDeadline_insert).
      split; [|split; [done|split; [|split; [done|]]]].
      * split; [done|]. split; [done|]. simpl. rewrite Hins.
        rewrite madeFor_app. simpl.
        destruct (decide (keyOf t at_ = k)) as [Heq|Hne].
        -- rewrite Heq in *. rewrite Hk in Hentry.
           unfold madeFor in *. simpl in *. rewrite Hentry. simpl.
           split; [done|]. eexists. rewrite Deadline_of_new. simpl.
           split; [done|]. rewrite Hbg.
           apply deadlineUnder_mono. unfold Add. lia.
        -- rewrite app_nil_r.
           destruct (lookupDeadline k t) as [e|] eqn:Hke; [|done].
           destruct Hentry as (Hmade & dl & Hdl & Hle).
           split; [done|]. exists dl. split; [|done].
           rewrite Deadline_of_app; [done|].
           unfold Deadline_of in Hdl.
           destruct (heap w !! context e) eqn:Hh; [|done].
           by eapply lookup_lt_Some.
      * intros d. rewrite Hins. case_decide; [|done]. congruence.
      * intros Hkey. rewrite Hins.
        change (keyOf t at_ = k) in Hkey.
        by rewrite decide_True.
  - (* the due time is read *)
    destruct (cleanupDue now t); intros [= <- <-]; simpl;
      (split; [done|]); repeat (split; [done|]); [done|].
    intros Hkey. exists d. split; [by apply Hok|done].
  - (* the gate *)
    unfold tryLockCleanup. destruct (cleanupLock t =? 0);
      intros [= <- <-]; simpl; (split; [done|]); repeat (split; [done|]);
      [done|].
    intros Hkey. exists d. split; [by apply Hok|done].
  - (* the due time is published *)
    intros [= <- <-]. simpl. split; [done|]. by repeat (split; [done|]).
  - (* the range produces an entry *)
    destruct (lookupDeadline k1 t) as [d'|] eqn:Hk1; [|done].
    intros [= <- <-]. simpl. split; [done|]. repeat (split; [done|]).
    intros Heq. by rewrite <- Heq.
  - (* the range ends *)
    intros [= <- <-]. simpl. split; [done|]. by repeat (split; [done|]).
  - (* the test of the loop body *)
    destruct Hok as [Hkeep Hk'].
    destruct (expired now (resolution t) (heap w) d') eqn:Hexp;
      intros [= <- <-]; simpl.
    + assert (k' <> k) as Hne.
      { intros ->. rewrite (Hk' eq_refl) in Hentry.
        destruct Hentry as (_ & dl & Hdl & Hle).
        apply expired_true in Hexp. rewrite Hdl in Hexp. simpl in Hexp.
        unfold graceBound, Add in *. lia. }
      split; [|by repeat (split; [done|])].
      split; [done|]. split; [done|]. simpl.
      destruct (lookupDeadline k t) as [e|]; [|done].
      by rewrite Deadline_of_callCancel.
    + split; [done|]. by repeat (split; [done|]).
  - (* the entry is deleted *)
    destruct Hok as [Hkeep Hne]. intros [= <- <-]. simpl.
    assert (lookupDeadline k (deleteDeadline k' t) = lookupDeadline k t) as Hdel
      by (rewrite lookupDeadline_delete; by rewrite decide_False).
    split; [|split; [done|split; [|split; [done|]]]].
    + split; [done|]. split; [done|]. simpl. by rewrite Hdel.
    + intros d0. by rewrite Hdel.
    + intros Hkey. rewrite Hdel. by apply Hkeep.
  - (* the gate is released *)
    intros [= <- <-]. simpl. split; [done|]. repeat (split; [done|]).
    intros Hkey. exists d. split; [by apply Hok|done].
Qed.

Lemma step_safe k t0 im c c' :
  safe k t0 c -> step im c = Some c' -> safe k t0 c'.
Proof.
  intros [Hs Hpool]. unfold step.
  destruct (pool c !! im.1) as [g|] eqn:Hg; [|done].
  destruct (advance im.2 (shared c) g) as [[s' g']|] eqn:Hadv; [|done].
  intros [= <-]. simpl.
  destruct (Forall_lookup_1 _ _ _ _ Hpool Hg) as [Hnow Hok].
  destruct (advance_safe _ _ _ _ _ _ _ Hs Hnow Hok Hadv)
    as (Hs' & HR & Hkeep & Hnow' & Hok').
  split; [done|]. simpl. apply Forall_insert.
  - eapply Forall_impl; [exact Hpool|]. intros g0 [? ?]. split; [done|].
    by eapply goroutine_ok_frame.
  - split; [by rewrite Hnow'|done].
Qed.

Lemma exec_safe k t0 sched : forall c c',
  safe k t0 c -> exec sched c = Some c' -> safe k t0 c'.
Proof.
  induction sched as [|im sched IH]; intros c c' Hsafe; simpl.
  - by intros [= <-].
  - destruct (step im c) as [c1|] eqn:Hstep; [|done].
    apply IH. by eapply step_safe.
Qed.

Lemma start_safe k w t calls :
  lookupDeadline k t = None ->
  (forall call, call ∈ calls -> call.2 <= graceBound k t) ->
  safe k t (start w t calls).
Proof.
  intros Hk Hnow. split; simpl.
  - split; [done|]. split; [done|]. simpl. by rewrite Hk.
  - apply Forall_fmap, Forall_forall. intros call Hin. simpl.
    split; [by apply Hnow|done].
Qed.

(** A goroutine that has not returned can take a step, as long as the
    resolution is positive. *)
Lemma can_advance s g :
  0 < resolution (timeline s) ->
  (exists h, g_pc g = Returned h) \/
  exists m s' g', advance m s g = Some (s', g').
Proof.
  intros Hr. destruct s as [w t mk], g as [at_ now p]. simpl in *.
  unfold advance. simpl.
  destruct p as [|k0|d|d ct|d ct|d|d k' d'|d k'|d|h].
  - right. exists Next. destruct (fastPath _ _); by eexists _, _.
  - right. exists Next.
    destruct (lookupDeadline k0 t) as [d|] eqn:Hk.
    + rewrite (lookupOrCreate_hit _ _ _ _ _ _ _ Hk). by eexists _, _.
    + destruct (lookupOrCreate_miss k0 (background t) (Unix0 k0)
                  (resolution t) w t Hk Hr) as (j & rg & _ & _ & ->).
      by eexists _, _.
  - right. exists Next. destruct (cleanupDue now t); by eexists _, _.
  - right. exists Next. destruct (tryLockCleanup t) as [[] ?]; by eexists _, _.
  - right. exists Next. by eexists _, _.
  - right. exists EndRange. by eexists _, _.
  - right. exists Next. destruct (expired _ _ _ _); by eexists _, _.
  - right. exists Next. by eexists _, _.
  - right. exists Next. by eexists _, _.
  - left. by exists h.
Qed.

(** *** The log and the heap *)

Lemma advance_g_at m s g s' g' :
  advance m s g = Some (s', g') -> g_at g' = g_at g.
Proof.
  destruct s as [w t mk], g as [at_ now p]. unfold advance. simpl.
  destruct p as [|k0|d|d ct|d ct|d|d k' d'|d k'|d|h], m as [|k1|];
    try done; simpl.
  - destruct (fastPath _ _); by intros [= <- <-].
  - destruct (lookupOrCreate _ _ _ _ _ _) as [[[w' t'] d]|]; [|done].
    by intros [= <- <-].
  - destruct (cleanupDue now t); by intros [= <- <-].
  - destruct (tryLockCleanup t) as [[|] t1]; by intros [= <- <-].
  - by intros [= <- <-].
  - destruct (lookupDeadline k1 t); [|done]. by intros [= <- <-].
  - by intros [= <- <-].
  - destruct (expired _ _ _ _); by intros [= <- <-].
  - by intros [= <- <-].
  - by intros [= <- <-].
Qed.

(** A step logs what it adds to the heap, and only the slow path adds to
    the heap. *)
Lemma advance_logged hp0 m s g s' g' :
  advance m s g = Some (s', g') -> logged hp0 s -> logged hp0 s'.
Proof.
  destruct s as [w t mk], g as [at_ now p]. unfold advance, logged. simpl.
  intros Hadv [Hlog Hle].
  destruct p as [|k0|d|d ct|d ct|d|d k' d'|d k'|d|h], m as [|k1|];
    try done; simpl in *.
  - destruct (fastPath _ _); by injection Hadv as <- <-.
  - destruct (lookupOrCreate _ _ _ _ _ _) as [[[w' t'] d]|] eqn:HOk; [|done].
    injection Hadv as <- <-. simpl.
    apply lookupOrCreate_Ok in HOk.
    destruct (lookupDeadline k0 t).
    + destruct HOk as (-> & -> & ->). by rewrite allocated_same, app_nil_r.
    + destruct HOk as (_ & j & rg & _ & -> & -> & ->). simpl.
      rewrite allocated_one, fmap_app, Hlog, length_app. simpl.
      split; [|lia].
      replace (length (heap w) + 1 - length hp0)%nat
        with ((length (heap w) - length hp0) + 1)%nat by lia.
      rewrite seq_app. simpl. do 3 f_equal. lia.
  - destruct (cleanupDue now t); by injection Hadv as <- <-.
  - destruct (tryLockCleanup t) as [[|] t1]; by injection Hadv as <- <-.
  - by injection Hadv as <- <-.
  - destruct (lookupDeadline k1 t); [|done]. by injection Hadv as <- <-.
  - by injection Hadv as <- <-.
  - destruct (expired _ _ _ _); injection Hadv as <- <-; simpl; [|done].
    by rewrite callCancel_length.
  - by injection Hadv as <- <-.
  - by injection Hadv as <- <-.
Qed.

(** What a step logs, it logs under the key its goroutine is at. *)
Lemma advance_made m s g s' g' :
  advance m s g = Some (s', g') ->
  forall e, e ∈ made s' ->
    e ∈ made s \/ exists k0, g_pc g = AtMiss k0 /\ e.1 = k0.
Proof.
  destruct s as [w t mk], g as [at_ now p]. unfold advance. simpl.
  intros Hadv e.
  destruct p as [|k0|d|d ct|d ct|d|d k' d'|d k'|d|h], m as [|k1|];
    try done; simpl in *.
  - destruct (fastPath _ _); injection Hadv as <- <-; by left.
  - destruct (lookupOrCreate _ _ _ _ _ _) as [[[w' t'] d]|]; [|done].
    injection Hadv as <- <-. simpl.
    intros [?|Hin]%elem_of_app; [by left|]. right. exists k0.
    split; [done|]. unfold allocated in Hin.
    apply list_elem_of_fmap in Hin as (h & -> & _). done.
  - destruct (cleanupDue now t); injection Hadv as <- <-; by left.
  - destruct (tryLockCleanup t) as [[|] t1]; injection Hadv as <- <-;
      by left.
  - injection Hadv as <- <-. by left.
  - destruct (lookupDeadline k1 t); [|done]. injection Hadv as <- <-.
    by left.
  - injection Hadv as <- <-. by left.
  - destruct (expired _ _ _ _); injection Hadv as <- <-; by left.
  - injection Hadv as <- <-. by left.
  - injection Hadv as <- <-. by left.
Qed.

Lemma step_tied k t0 hp0 im c c' :
  safe k t0 c -> step im c = Some c' ->
  logged hp0 (shared c) -> askedFor t0 (pool c) (shared c) ->
  logged hp0 (shared c') /\ askedFor t0 (pool c') (shared c') /\
  g_at <$> pool c' = g_at <$> pool c.
Proof.
  intros [(HR & _) Hpool]. unfold step.
  destruct (pool c !! im.1) as [g|] eqn:Hg; [|done].
  destruct (advance im.2 (shared c) g) as [[s' g']|] eqn:Hadv; [|done].
  intros [= <-] Hlog Hasked. simpl.
  pose proof (advance_g_at _ _ _ _ _ Hadv) as Hat.
  assert (g' ∈ <[im.1 := g']> (pool c)) as Hin'.
  { apply list_elem_of_lookup. exists im.1.
    apply list_lookup_insert_eq. by eapply lookup_lt_Some. }
  split; [by eapply advance_logged|]. split.
  - intros e [Hold|(k0 & Hpc & Hk0)]%(advance_made _ _ _ _ _ Hadv).
    + destruct (Hasked e Hold) as (g0 & [j Hj]%list_elem_of_lookup & Hkey).
      destruct (decide (j = im.1)) as [->|Hne].
      * exists g'. split; [done|]. rewrite Hat. congruence.
      * exists g0. split; [|done]. apply list_elem_of_lookup. exists j.
        by rewrite list_lookup_insert_ne.
    + exists g'. split; [done|]. rewrite Hat, Hk0.
      destruct (Forall_lookup_1 _ _ _ _ Hpool Hg) as [_ Hok].
      unfold goroutine_ok in Hok. rewrite Hpc in Hok.
      rewrite Hok. symmetry. by apply keyOf_Resolution.
  - rewrite list_fmap_insert, Hat. apply list_insert_id.
    by rewrite list_lookup_fmap, Hg.
Qed.

Lemma exec_tied k t0 hp0 sched : forall c c',
  safe k t0 c -> exec sched c = Some c' ->
  logged hp0 (shared c) -> askedFor t0 (pool c) (shared c) ->
  logged hp0 (shared c') /\ askedFor t0 (pool c') (shared c') /\
  g_at <$> pool c' = g_at <$> pool c.
Proof.
  induction sched as [|im sched IH]; intros c c' Hsafe; simpl.
  - by intros [= <-].
  - destruct (step im c) as [c1|] eqn:Hstep; [|done].
    intros Hexec Hlog Hasked.
    destruct (step_tied _ _ _ _ _ _ Hsafe Hstep Hlog Hasked)
      as (Hlog1 & Hasked1 & Hat1).
    destruct (IH c1 c' (step_safe _ _ _ _ _ Hsafe Hstep) Hexec Hlog1 Hasked1)
      as (? & ? & Hat).
    split; [done|]. split; [done|]. by rewrite Hat.
Qed.

Lemma filter_all {A} (P : A -> Prop) `{forall x, Decision (P x)} (l : list A) :
  Forall P l -> filter P l = l.
Proof.
  induction 1 as [|x l Hx _ IH]; [done|].
  by rewrite filter_cons_True, IH.
Qed.

(** C8, amended: a map holds at most one entry per key. For goroutines
    calling [Context] concurrently, on a Timeline where the bucket [k] has
    no entry and with every call's [now] no later than the earliest
    deadline the bucket can get plus one resolution (so that no sweep of
    theirs removes its entry): along every interleaving of their steps at
    most one context is created for [k], and every goroutine that has
    returned from a call for [k] has received that one context, which is
    the entry of [k]. With a positive resolution no goroutine is ever
    stuck before it returns. The contexts counted are those of the heap:
    the contexts created, for whatever bucket, are exactly those the heap
    has grown by since the start, each counted once. So when every call
    is for [k], the heap grows by at most one context, and it has grown
    by exactly one, the one every caller receives, as soon as a caller
    has returned. *)
Theorem one_context_per_bucket (w : World G) t k calls sched c :
  lookupDeadline k t = None ->
  (forall call, call ∈ calls -> call.2 <= graceBound k t) ->
  exec sched (start w t calls) = Some c ->
  (length (madeFor k (shared c)) <= 1)%nat /\
  (forall g h, g ∈ pool c -> keyOf t (g_at g) = k -> g_pc g = Returned h ->
     madeFor k (shared c) = [(k, h)] /\
     exists e, lookupDeadline k (timeline (shared c)) = Some e /\
       context e = h) /\
  (0 < resolution t -> forall i g, pool c !! i = Some g ->
     (exists h, g_pc g = Returned h) \/
     exists m c', step (i, m) c = Some c') /\
  ((made (shared c)).*2
   = seq (length (heap w))
       (length (heap (world (shared c))) - length (heap w)) /\
   (length (heap w) <= length (heap (world (shared c))))%nat) /\
  ((forall call, call ∈ calls -> keyOf t call.1 = k) ->
   (length (heap (world (shared c))) <= length (heap w) + 1)%nat /\
   forall g h, g ∈ pool c -> g_pc g = Returned h ->
     h = length (heap w) /\
     length (heap (world (shared c))) = (length (heap w) + 1)%nat).
Proof.
  intros Hk Hnow Hexec.
  pose proof (start_safe k w t calls Hk Hnow) as Hstart.
  pose proof (exec_safe k t sched _ _ Hstart Hexec)
    as [(HR & HB & Hentry) Hpool].
  destruct (exec_tied k t (heap w) sched _ _ Hstart Hexec)
    as ([Hlog Hle] & Hasked & Hat).
  { split; simpl; [by rewrite Nat.sub_diag|done]. }
  { by intros e ?%elem_of_nil. }
  assert (length (madeFor k (shared c)) <= 1)%nat as Hone.
  { destruct (lookupDeadline k (timeline (shared c))).
    - destruct Hentry as [-> _]. simpl. lia.
    - rewrite Hentry. simpl. lia. }
  assert (forall g h, g ∈ pool c -> keyOf t (g_at g) = k ->
            g_pc g = Returned h ->
            madeFor k (shared c) = [(k, h)] /\
            exists e, lookupDeadline k (timeline (shared c)) = Some e /\
              context e = h) as Hret.
  { intros g h Hin Hkey Hret.
    apply (proj1 (Forall_forall _ _) Hpool) in Hin as [_ Hok].
    unfold goroutine_ok in Hok. rewrite Hret in Hok.
    rewrite (keyOf_Resolution t _ _ HR) in Hok.
    destruct (Hok Hkey) as (e & He & <-).
    rewrite He in Hentry. destruct Hentry as [-> _].
    split; [done|]. by exists e. }
  split; [done|]. split; [done|]. split; [|split; [done|]].
  - intros Hr i g Hg.
    assert (0 < resolution (timeline (shared c))) as Hr'
      by (unfold resolution in *; by rewrite HR).
    destruct (can_advance (shared c) g Hr')
      as [?|(m & s' & g' & Hadv)]; [by left|].
    right. exists m. unfold step. simpl. rewrite Hg, Hadv. by eexists.
  - intros Hall.
    assert (forall g, g ∈ pool c -> keyOf t (g_at g) = k) as Hpoolk.
    { intros g Hin.
      assert (g_at g ∈ g_at <$> pool c) as Hin'
        by (apply list_elem_of_fmap; by exists g).
      rewrite Hat in Hin'. simpl in Hin'.
      rewrite <- list_fmap_compose in Hin'.
      apply list_elem_of_fmap in Hin' as (call & -> & Hcall).
      by apply Hall. }
    assert (madeFor k (shared c) = made (shared c)) as Hmade.
    { apply filter_all, Forall_forall. intros e He.
      destruct (Hasked e He) as (g & Hg & <-). by apply Hpoolk. }
    assert (length (made (shared c))
            = (length (heap (world (shared c))) - length (heap w))%nat)
      as Hlen.
    { rewrite <- (length_fmap snd), Hlog. apply length_seq. }
    rewrite Hmade in Hone. split; [lia|].
    intros g h Hin Hg.
    destruct (Hret g h Hin (Hpoolk g Hin) Hg) as [Hh _].
    rewrite Hmade in Hh. rewrite Hh in Hlog, Hlen. simpl in *.
    assert (length (heap (world (shared c))) - length (heap w) = 1)%nat
      as Hdiff by lia.
    rewrite Hdiff in Hlog. simpl in Hlog. injection Hlog as ->.
    split; [done|lia].
Qed.

End OneContextPerBucket.

Lemma one_context_per_bucket_witness :
  let w := {| heap := []; jitterRand := 0 |} in
  let t := newTimeline 10 None in
  let sched := [(0, Next); (1, Next); (0, Next); (1, Next); (1, Next);
                (0, Next)]%nat in
  exists c, exec sched (start w t [(1005, 1000); (1008, 1000)]) = Some c /\
    (length (madeFor 1010 (shared c)) <= 1)%nat /\
    (length (heap (world (shared c))) <= length (heap w) + 1)%nat.
Proof.
  intros w t sched.
  destruct (exec sched (start w t [(1005, 1000); (1008, 1000)]))
    as [c|] eqn:Hexec; [|vm_compute in Hexec; discriminate].
  exists c. split; [reflexivity|].
  destruct (one_context_per_bucket w t 1010 [(1005, 1000); (1008, 1000)]
              sched c) as (Hone & _ & _ & _ & Hheap);
    [reflexivity| |exact Hexec|].
  - intros call Hin. rewrite !elem_of_cons, elem_of_nil in Hin.
    destruct Hin as [->|[->|[]]]; vm_compute; discriminate.
  - split; [exact Hone|]. apply Hheap.
    intros call Hin. rewrite !elem_of_cons, elem_of_nil in Hin.
    destruct Hin as [->|[->|[]]]; reflexivity.
Defined.

(** C8 as stated fails when the requests are for an instant more than a
    resolution before their [now], on a Timeline that has never swept.
    Both goroutines miss the fast path; the first creates the entry,
    finds a sweep due, and its sweep cancels and removes the entry; the
    second then finds no entry under the write lock and creates another
    context. Two contexts are created for the bucket (the heap, empty at
    the start, holds two) and the two callers receive different ones. The Timeline is the zero value, the instant
    is one second after the epoch and [now] a thousand seconds after it. *)
Lemma two_goroutines_two_contexts :
  let t := newTimeline 0 None in
  let w := {| heap := []; jitterRand := 0 |} in
  let at_ := Unix0 Second in
  let now := Unix0 (1000 * Second) in
  let k := keyOf t at_ in
  let sched :=
    [(0, Next); (1, Next);
     (0, Next); (0, Next); (0, Next); (0, Next);
     (0, Produce k); (0, Next); (0, Next); (0, EndRange); (0, Next);
     (1, Next); (1, Next); (1, Next); (1, Next);
     (1, Produce k); (1, Next); (1, Next); (1, EndRange); (1, Next)]%nat in
  exists c, exec sched (start w t [(at_, now); (at_, now)]) = Some c /\
    madeFor k (shared c) = [(k, 0%nat); (k, 1%nat)] /\
    length (heap (world (shared c))) = 2%nat /\
    g_pc <$> pool c = [Returned 0; Returned 1] /\
    entries (timeline (shared c)) = [].
Proof.
  eexists. split; [vm_compute; reflexivity|].
  split; [reflexivity|]. split; [reflexivity|]. split; reflexivity.
Qed.

(** ** A goroutine on its own runs [Context]

    The steps of one goroutine that nothing interleaves with, with the
    range producing the entries in the order of [entries], do what the
    function [Context] does. *)

Section Solo.

Context {G : Type} {RG : Rand G}.

Implicit Types (w : World G) (t : Timeline) (d : deadline).

Lemma exec_app (s1 s2 : list (nat * move)) : forall c : Config G,
  exec (s1 ++ s2) c =
  match exec s1 c with
  | Some c' => exec s2 c'
  | None => None
  end.
Proof.
  induction s1 as [|im s1 IH]; intros c; simpl; [done|].
  by destruct (step im c).
Qed.

Lemma step_solo m s g :
  step (0%nat, m) (solo s g) =
  match advance m s g with
  | Some (s', g') => Some (solo s' g')
  | None => None
  end.
Proof. unfold step. simpl. by destruct (advance m s g) as [[? ?]|]. Qed.

Lemma exec_solo_cons m sched s g s' g' :
  advance m s g = Some (s', g') ->
  exec ((0%nat, m) :: sched) (solo s g) = exec sched (solo s' g').
Proof. intros Hadv. simpl. by rewrite step_solo, Hadv. Qed.

(** The loop of [cleanup] over the entries [l]. *)
Lemma solo_range at_ now d mk (l : list (Z * deadline)) : forall w t,
  NoDup l.*1 ->
  (forall k d', (k, d') ∈ l -> lookupDeadline k t = Some d') ->
  exists sched,
    exec sched
      (solo {| world := w; timeline := t; made := mk |}
            {| g_at := at_; g_now := now; g_pc := AtRange d |}) =
    Some (solo {| world := (foldl (cleanupEntry now (resolution t)) (w, t) l).1;
                  timeline := (foldl (cleanupEntry now (resolution t)) (w, t) l).2;
                  made := mk |}
               {| g_at := at_; g_now := now; g_pc := AtRange d |}).
Proof.
  induction l as [|[k d'] l IH]; intros w t Hnodup Hin.
  - by exists [].
  - apply NoDup_cons in Hnodup as [Hk Hnodup].
    assert (lookupDeadline k t = Some d') as Hkd by (apply Hin; by left).
    change (foldl (cleanupEntry now (resolution t)) (w, t) ((k, d') :: l))
      with (foldl (cleanupEntry now (resolution t))
              (cleanupEntry now (resolution t) (w, t) (k, d')) l).
    rewrite cleanupEntry_eq.
    destruct (expired now (resolution t) (heap w) d') eqn:Hexp.
    + destruct (IH (setHeap (callCancel (cancel d') (heap w)) w)
                  (deleteDeadline k t) Hnodup) as [sched Hsched].
      { intros k2 d2 Hin2. rewrite lookupDeadline_delete.
        rewrite decide_False; [apply Hin; by right|].
        intros ->. apply Hk. apply list_elem_of_fmap. by exists (k2, d2). }
      exists ((0%nat, Produce k) :: (0%nat, Next) :: (0%nat, Next) :: sched).
      erewrite exec_solo_cons
        by (unfold advance; simpl; rewrite Hkd; reflexivity).
      erewrite exec_solo_cons
        by (unfold advance; simpl; rewrite Hexp; reflexivity).
      erewrite exec_solo_cons by (unfold advance; simpl; reflexivity).
      exact Hsched.
    + destruct (IH w t Hnodup) as [sched Hsched].
      { intros k2 d2 Hin2. apply Hin. by right. }
      exists ((0%nat, Produce k) :: (0%nat, Next) :: sched).
      erewrite exec_solo_cons
        by (unfold advance; simpl; rewrite Hkd; reflexivity).
      erewrite exec_solo_cons
        by (unfold advance; simpl; rewrite Hexp; reflexivity).
      exact Hsched.
Qed.

Lemma solo_Context at_ now w t w' t' h :
  cleanupLock t = 0 ->
  Context at_ now w t = Ok (w', t', h) ->
  exists sched c,
    exec sched (start w t [(at_, now)]) = Some c /\
    pool c = [{| g_at := at_; g_now := now; g_pc := Returned h |}] /\
    world (shared c) = w' /\ timeline (shared c) = t'.
Proof.
  intros Hgate. rewrite Context_eq.
  change (start w t [(at_, now)])
    with (solo {| world := w; timeline := t; made := [] |}
               {| g_at := at_; g_now := now; g_pc := AtStart |}).
  destruct (fastPath (keyOf t at_) t) as [d|] eqn:Hfast.
  - intros [= <- <- <-]. exists [(0%nat, Next)]. eexists.
    erewrite exec_solo_cons
      by (unfold advance; simpl; rewrite Hfast; reflexivity).
    by split.
  - destruct (lookupOrCreate _ _ _ _ _ _) as [[[w1 t1] d]|] eqn:HOk; [|done].
    simpl. destruct (tryCleanup now w1 t1) as [w2 t2] eqn:Hsweep.
    intros [= <- <- <-].
    assert (cleanupLock t1 = 0) as Hgate1.
    { apply lookupOrCreate_Ok in HOk.
      destruct (lookupDeadline (keyOf t at_) t).
      - by destruct HOk as (_ & -> & _).
      - by destruct HOk as (_ & j & rg & _ & _ & -> & _). }
    unfold tryCleanup, tryLockCleanup in Hsweep. rewrite Hgate1 in Hsweep.
    simpl in Hsweep.
    destruct (cleanupDue now t1) eqn:Hdue.
    + destruct (cleanup now w1 _) as [w3 t3] eqn:Hcleanup.
      injection Hsweep as <- <-. unfold cleanup in Hcleanup.
      set (t1' := storeCleanupTime
                    (nextCleanupTime (setCleanupLock 1 t1) (loadCleanupTime t1))
                    (setCleanupLock 1 t1)) in *.
      destruct (solo_range at_ now d
                  ([] ++ allocated (keyOf t at_) (heap w) (heap w1))
                  (entries t1') w1 t1') as [sched Hsched].
      { unfold entries. destruct (deadlines t1'); [|constructor].
        apply NoDup_fst_map_to_list. }
      { intros k d'. apply elem_of_entries. }
      rewrite Hcleanup in Hsched. simpl in Hsched.
      exists ((0%nat, Next) :: (0%nat, Next) :: (0%nat, Next) ::
              (0%nat, Next) :: (0%nat, Next) ::
              sched ++ [(0%nat, EndRange); (0%nat, Next)]).
      eexists.
      erewrite exec_solo_cons
        by (unfold advance; simpl; rewrite Hfast; reflexivity).
      erewrite exec_solo_cons
        by (unfold advance; simpl; rewrite HOk; reflexivity).
      erewrite exec_solo_cons
        by (unfold advance; simpl; rewrite Hdue; reflexivity).
      erewrite exec_solo_cons
        by (unfold advance, tryLockCleanup; simpl; rewrite Hgate1; reflexivity).
      erewrite exec_solo_cons by (unfold advance; simpl; reflexivity).
      rewrite exec_app. unfold setTimeline, setPc. simpl. fold t1'.
      rewrite Hsched.
      rewrite step_solo. unfold advance. simpl.
      by split.
    + injection Hsweep as <- <-.
      exists [(0%nat, Next); (0%nat, Next); (0%nat, Next)]. eexists.
      erewrite exec_solo_cons
        by (unfold advance; simpl; rewrite Hfast; reflexivity).
      erewrite exec_solo_cons
        by (unfold advance; simpl; rewrite HOk; reflexivity).
      erewrite exec_solo_cons
        by (unfold advance; simpl; rewrite Hdue; reflexivity).
      by split.
Qed.

End Solo.

(** ** The windows of the bucket key *)

Section KeyWindows.

Lemma UnixNano_in_range (at_ : Time) :
  Int64.in_range at_ -> UnixNano at_ = at_.
Proof. apply wrap_in_range. Qed.

Lemma keyOf_nonneg t (at_ : Time) :
  0 < resolution t -> 0 <= at_ -> at_ + resolution t <= Int64.max_int64 ->
  keyOf t at_ = ceilingMultiple (resolution t) at_.
Proof.
  intros Hr Hat Hmax. unfold keyOf.
  rewrite UnixNano_in_range; [by apply bucketKey_nonneg|].
  unfold Int64.in_range, Int64.min_int64, Int64.max_int64 in *. lia.
Qed.

(** The ceiling is less than one resolution above the timestamp. *)
Lemma ceilingMultiple_lt r k : 0 < r -> ceilingMultiple r k < k + r.
Proof.
  intros Hr. unfold ceilingMultiple.
  pose proof (Z.div_mod (- k) r ltac:(lia)) as Hdm.
  pose proof (Z.mod_pos_bound (- k) r Hr) as Hmod. nia.
Qed.

(** X1: for an instant at or after the epoch, as long as the next multiple
    fits an [int64], the bucket key is a multiple of the resolution, at
    or after the instant and less than one resolution after it; it is the
    only such multiple, and every instant between the instant and its key
    has the same key. *)
Theorem keyOf_window t (at_ : Time) :
  0 < resolution t -> 0 <= at_ -> at_ + resolution t <= Int64.max_int64 ->
  (exists m, keyOf t at_ = m * resolution t) /\
  at_ <= keyOf t at_ < at_ + resolution t /\
  (forall m, at_ <= m * resolution t < at_ + resolution t ->
     keyOf t at_ = m * resolution t) /\
  (forall b : Time, at_ <= b <= keyOf t at_ ->
     b + resolution t <= Int64.max_int64 -> keyOf t b = keyOf t at_).
Proof.
  intros Hr Hat Hmax. rewrite (keyOf_nonneg t at_ Hr Hat Hmax).
  destruct (ceilingMultiple_least (resolution t) at_ Hr)
    as ([m Hm] & Hge & Hleast).
  pose proof (ceilingMultiple_lt (resolution t) at_ Hr) as Hlt.
  assert (forall m', at_ <= m' * resolution t < at_ + resolution t ->
            ceilingMultiple (resolution t) at_ = m' * resolution t) as Huniq.
  { intros m' [Hge' Hlt']. specialize (Hleast m' Hge').
    rewrite Hm in *.
    assert (m' < m + 1) by nia. assert (m <= m') by nia.
    assert (m' = m) as -> by lia. done. }
  split; [by exists m|]. split; [lia|]. split; [exact Huniq|].
  intros b [Hab Hbk] Hbmax.
  rewrite keyOf_nonneg by lia.
  destruct (ceilingMultiple_least (resolution t) b Hr)
    as ([mb Hmb] & Hgeb & Hleastb).
  pose proof (ceilingMultiple_lt (resolution t) b Hr) as Hltb.
  rewrite Hmb. symmetry. apply Huniq.
  specialize (Hleastb m). rewrite <- Hm in Hleastb.
  specialize (Hleastb Hbk). lia.
Qed.

(** X2: on instants at or after the epoch, as long as the next multiple
    fits an [int64], a later instant never gets an earlier bucket. *)
Theorem keyOf_monotone t (a b : Time) :
  0 < resolution t -> 0 <= a -> a <= b ->
  b + resolution t <= Int64.max_int64 ->
  keyOf t a <= keyOf t b.
Proof.
  intros Hr Ha Hab Hb. unfold keyOf.
  rewrite !UnixNano_in_range
    by (unfold Int64.in_range, Int64.min_int64, Int64.max_int64 in *; lia).
  by apply bucketKey_monotone_nonneg.
Qed.

(** X3: for an instant before the epoch that is not a multiple of the
    resolution, the truncating division makes the bucket key the multiple
    after the ceiling: the key is at least one resolution, and less than
    two, after the instant. *)
Theorem keyOf_before_epoch t (at_ : Time) :
  0 < resolution t <= Int64.max_int64 ->
  Int64.min_int64 <= at_ < 0 -> Z.rem at_ (resolution t) <> 0 ->
  keyOf t at_ = ceilingMultiple (resolution t) at_ + resolution t /\
  at_ + resolution t <= keyOf t at_ < at_ + 2 * resolution t.
Proof.
  intros Hr Hat Hrem. unfold keyOf.
  rewrite UnixNano_in_range
    by (unfold Int64.in_range, Int64.min_int64, Int64.max_int64 in *; lia).
  rewrite bucketKey_before_epoch by done.
  split; [done|].
  destruct (ceilingMultiple_least (resolution t) at_ ltac:(lia))
    as (_ & Hge & _).
  pose proof (ceilingMultiple_lt (resolution t) at_ ltac:(lia)). lia.
Qed.

(** X4: when the multiple after the instant does not fit an [int64], the
    multiplication wraps around: the bucket key is that multiple less
    [2^64], an instant before the epoch. *)
Theorem keyOf_wraps t (at_ : Time) :
  0 < resolution t <= Int64.max_int64 ->
  0 <= at_ <= Int64.max_int64 ->
  Int64.max_int64 < ceilingMultiple (resolution t) at_ ->
  keyOf t at_ = ceilingMultiple (resolution t) at_ - 2 ^ 64 /\
  keyOf t at_ < 0.
Proof.
  intros Hr Hat Hover. unfold keyOf.
  rewrite UnixNano_in_range
    by (unfold Int64.in_range, Int64.min_int64, Int64.max_int64 in *; lia).
  set (r := resolution t) in *.
  pose proof (ceilingMultiple_lt r at_ ltac:(lia)) as Hlt.
  destruct (ceilingMultiple_least r at_ ltac:(lia)) as (_ & Hge & Hleast).
  pose proof (Z.div_mod at_ r ltac:(lia)) as Hdm.
  pose proof (Z.mod_pos_bound at_ r ltac:(lia)) as Hmod.
  assert (at_ mod r <> 0) as Hnz.
  { intros Hz. specialize (Hleast (at_ / r)). lia. }
  assert (ceilingMultiple r at_ = (at_ / r + 1) * r) as Hceil.
  { apply (least_multiple_ge_unique r at_);
      [by apply ceilingMultiple_least; lia|].
    split; [by eexists|]. split; [nia|].
    intros m Hm.
    assert (at_ <> m * r) by (intros ->; rewrite Z.mod_mul in Hnz; lia).
    assert (at_ / r < m); [|nia].
    apply Z.div_lt_upper_bound; lia. }
  assert (0 <= at_ / r) by (apply Z.div_pos; lia).
  assert (at_ / r <= at_) by (apply Z.div_le_upper_bound; nia).
  assert (2 <= r).
  { destruct (decide (r = 1)) as [Hr1|]; [|lia].
    rewrite Hr1, Z.mod_1_r in Hnz. done. }
  assert (2 * (at_ / r) <= at_) by nia.
  unfold bucketKey, Int64.rem, Int64.quo, Int64.add, Int64.mul.
  rewrite Z.rem_mod_nonneg, Z.quot_div_nonneg by lia.
  destruct (Z.eqb_spec (at_ mod r) 0) as [|_]; [done|].
  unfold Int64.max_int64, Int64.min_int64 in *.
  rewrite (wrap_in_range (at_ / r))
    by (unfold Int64.in_range, Int64.min_int64, Int64.max_int64; lia).
  rewrite (wrap_in_range (at_ / r + 1))
    by (unfold Int64.in_range, Int64.min_int64, Int64.max_int64; lia).
  rewrite <- Hceil. unfold Int64.wrap.
  assert ((ceilingMultiple r at_ + 2 ^ 63) mod 2 ^ 64
          = ceilingMultiple r at_ + 2 ^ 63 - 2 ^ 64) as ->.
  { symmetry. apply Z.mod_unique with 1; lia. }
  lia.
Qed.

End KeyWindows.

Lemma keyOf_window_witness :
  25 * Millisecond - 1 <= keyOf HighRes (25 * Millisecond - 1)
    < 25 * Millisecond - 1 + resolution HighRes.
Proof.
  apply (keyOf_window HighRes (25 * Millisecond - 1));
    vm_compute; (reflexivity || discriminate).
Defined.

Lemma keyOf_monotone_witness :
  keyOf HighRes (25 * Millisecond) <= keyOf HighRes (31 * Millisecond).
Proof.
  apply (keyOf_monotone HighRes); vm_compute; (reflexivity || discriminate).
Defined.

Lemma keyOf_before_epoch_witness :
  keyOf LowRes (-1) = ceilingMultiple (resolution LowRes) (-1)
                      + resolution LowRes.
Proof.
  apply (keyOf_before_epoch LowRes (-1)).
  - split; vm_compute; (reflexivity || discriminate).
  - split; vm_compute; (reflexivity || discriminate).
  - vm_compute. discriminate.
Defined.

Lemma keyOf_wraps_witness :
  keyOf LowRes (Int64.max_int64 - 5) < 0.
Proof.
  apply (keyOf_wraps LowRes (Int64.max_int64 - 5)).
  - split; vm_compute; (reflexivity || discriminate).
  - split; vm_compute; (reflexivity || discriminate).
  - vm_compute. reflexivity.
Defined.

(** ** What a call does to the contexts *)

Section Effects.

Context {G : Type} {RG : Rand G}.

Implicit Types (w : World G) (t : Timeline) (d : deadline).

(** A call that misses runs the slow path, then the end of [Context]. *)
Lemma Context_miss_split at_ now w t w' t' h :
  Context at_ now w t = Ok (w', t', h) ->
  lookupDeadline (keyOf t at_) t = None ->
  exists j (rg : G) w1 t1,
    0 <= j < resolution t /\
    created (keyOf t at_) j rg w t = (w1, t1) /\
    tryCleanup now w1 t1 = (w', t') /\
    h = length (heap w).
Proof.
  intros HOk Hk.
  pose proof (Context_Ok_miss_positive _ _ _ _ _ _ _ HOk Hk) as Hr.
  destruct (Context_miss at_ now w t Hk Hr)
    as (j & rg & w1 & t1 & Hj & _ & Hcr & HOk').
  rewrite HOk in HOk'. injection HOk' as Hsweep ->.
  by exists j, rg, w1, t1.
Qed.

Lemma canceled_lt h (hp : list ctxState) :
  canceled h hp = true -> (h < length hp)%nat.
Proof.
  unfold canceled. destruct (hp !! h) eqn:Hh; [|done].
  intros _. by eapply lookup_lt_Some.
Qed.

(** A call un-cancels nothing; an entry it finds stays as it is or is
    removed with its context cancelled; and among the contexts that
    existed before, it cancels none but those of the entries it removes. *)
Lemma Context_effects at_ now w t w' t' h :
  wf w t -> Context at_ now w t = Ok (w', t', h) ->
  (forall h0, canceled h0 (heap w) = true -> canceled h0 (heap w') = true) /\
  (forall k d, lookupDeadline k t = Some d ->
     lookupDeadline k t' = Some d \/
     (lookupDeadline k t' = None /\
      canceled (context d) (heap w') = true /\
      expired now (resolution t) (heap w) d = true)) /\
  (forall h0, (h0 < length (heap w))%nat ->
     canceled h0 (heap w') = true ->
     canceled h0 (heap w) = true \/
     exists k d, lookupDeadline k t = Some d /\ context d = h0 /\
       lookupDeadline k t' = None).
Proof.
  intros Hwf HOk.
  destruct (lookupDeadline (keyOf t at_) t) as [d0|] eqn:Hk.
  - rewrite (Context_hit _ _ _ _ _ Hk) in HOk. injection HOk as <- <- <-.
    split; [done|]. split; [by left|by left].
  - destruct (Context_miss_split _ _ _ _ _ _ _ HOk Hk)
      as (j & rg & w1 & t1 & Hj & Hcr & Hsweep & ->).
    apply created_spec in Hcr
      as (Hwf1 & Hheap1 & _ & (HR1 & _) & Hmap1); [|done..].
    assert (resolution t1 = resolution t) as Hres
      by (unfold resolution; by rewrite HR1).
    apply tryCleanup_spec in Hsweep
      as (_ & (_ & Hlen & Hdl) & Hmap & Hcan); [|by apply (wf_gate _ _ Hwf1)].
    assert (forall h0, (h0 < length (heap w))%nat ->
              canceled h0 (heap w1) = canceled h0 (heap w)) as Hold
      by (intros; rewrite Hheap1; by apply canceled_app).
    assert (forall k d, lookupDeadline k t = Some d ->
              lookupDeadline k t1 = Some d /\
              expired now (resolution t1) (heap w1) d
              = expired now (resolution t) (heap w) d) as Hkeep.
    { intros k d Hkd. split.
      - apply Hmap1. case_decide; [congruence|done].
      - unfold expired. rewrite Hres, Hheap1, Deadline_of_app; [done|].
        by eapply (wf_alloc _ _ Hwf). }
    split; [|split].
    + intros h0 Hc. apply Hcan. left.
      rewrite Hold; [done|by apply canceled_lt].
    + intros k d Hkd. destruct (Hkeep k d Hkd) as [Hk1 Hexp].
      destruct (cleanupDue now t1 &&
                expired now (resolution t1) (heap w1) d) eqn:Hgone.
      * apply andb_true_iff in Hgone as [Hdue He]. right.
        split; [|split].
        -- destruct (lookupDeadline k t') as [d'|] eqn:Hk'; [|done].
           apply Hmap in Hk' as [Hk' Hne]. specialize (Hne Hdue).
           congruence.
        -- apply Hcan. right. split; [done|]. exists k, d.
           split; [done|]. split; [done|].
           split; [by eapply (wf_cancel _ _ Hwf)|].
           rewrite Hheap1, length_app. simpl.
           apply (wf_alloc _ _ Hwf) in Hkd. lia.
        -- congruence.
      * left. apply Hmap. split; [done|]. intros Hdue.
        rewrite Hdue in Hgone. done.
    + intros h0 Hlt Hc.
      apply Hcan in Hc as [Hc|(Hdue & k & d & Hk1 & He & Hcf & _)].
      * left. by rewrite <- Hold.
      * right. rewrite (wf_cancel _ _ Hwf1 _ _ Hk1) in Hcf.
        injection Hcf as Hcf.
        apply Hmap1 in Hk1 as Hk0.
        case_decide as Hkey; [subst d; simpl in Hcf; lia|].
        exists k, d. split; [done|]. split; [done|].
        destruct (lookupDeadline k t') as [d'|] eqn:Hk'; [|done].
        apply Hmap in Hk' as [Hk' Hne]. specialize (Hne Hdue).
        congruence.
Qed.

(** *** Every context returned stays the entry of its bucket until it is
    cancelled *)

Lemma liveOrCanceled_Context at_ now w t w' t' h :
  wf w t -> Context at_ now w t = Ok (w', t', h) ->
  liveOrCanceled h (keyOf t at_) w' t'.
Proof.
  intros Hwf HOk.
  pose proof (Context_post _ _ _ _ _ _ _ Hwf HOk)
    as (_ & _ & (_ & Hlt & _) & Hh & _).
  split; [done|].
  destruct (lookupDeadline (keyOf t at_) t) as [d|] eqn:Hk.
  - destruct Hh as (-> & -> & ->). right. by exists d.
  - destruct (Context_miss_post _ _ _ _ _ _ _ Hwf HOk Hk)
      as (_ & _ & Hgone & Hentry & _).
    destruct (cleanupDue now t && _) eqn:Hg.
    + by left.
    + right. exists (newEntry (heap w)). split; [done|]. by rewrite Hh.
Qed.

Lemma liveOrCanceled_perform h k c w t w' t' o :
  wf w t -> liveOrCanceled h k w t -> perform c w t = Ok (w', t', o) ->
  liveOrCanceled h k w' t'.
Proof.
  intros Hwf [Hlt Hlive]
    [(-> & HC & ->)|(at_ & now & h' & _ & HOk & ->)]%perform_inv.
  - apply Cancel_spec in HC as (-> & _ & Hlen & _ & Hcan).
    split; [lia|]. left. apply Hcan.
    destruct Hlive as [?|(d & Hk & <-)]; [by left|].
    right. exists k, d. split; [done|].
    split; [by eapply (wf_cancel _ _ Hwf)|by eapply (wf_alloc _ _ Hwf)].
  - pose proof (Context_post _ _ _ _ _ _ _ Hwf HOk)
      as (_ & _ & (Hlen & _) & _).
    destruct (Context_effects _ _ _ _ _ _ _ Hwf HOk) as (Hmono & Hkept & _).
    split; [lia|].
    destruct Hlive as [?|(d & Hk & <-)]; [left; by apply Hmono|].
    destruct (Hkept _ _ Hk) as [?|(_ & ? & _)]; [right; by exists d|by left].
Qed.

Lemma liveOrCanceled_steps h k P w t cs w' t' :
  steps P w t cs w' t' -> wf w t -> liveOrCanceled h k w t ->
  liveOrCanceled h k w' t'.
Proof.
  induction 1 as [|c cs w t w1 t1 o w' t' _ Hcall _ IH]; [done|].
  intros Hwf Hlive. apply IH.
  - by apply perform_wf in Hcall as (? & _).
  - by eapply liveOrCanceled_perform.
Qed.

Lemma canceled_perform h c w t w' t' o :
  wf w t -> perform c w t = Ok (w', t', o) ->
  canceled h (heap w) = true -> canceled h (heap w') = true.
Proof.
  intros Hwf [(-> & HC & ->)|(at_ & now & h' & _ & HOk & ->)]%perform_inv Hc.
  - apply Cancel_spec in HC as (_ & _ & _ & _ & Hcan). apply Hcan. by left.
  - destruct (Context_effects _ _ _ _ _ _ _ Hwf HOk) as (Hmono & _).
    by apply Hmono.
Qed.

Lemma canceled_steps h P w t cs w' t' :
  steps P w t cs w' t' -> wf w t ->
  canceled h (heap w) = true -> canceled h (heap w') = true.
Proof.
  induction 1 as [|c cs w t w1 t1 o w' t' _ Hcall _ IH]; [done|].
  intros Hwf Hc. apply IH.
  - by apply perform_wf in Hcall as (? & _).
  - by eapply canceled_perform.
Qed.

(** X6: through any later calls, a context that [Context] has returned is
    the entry of its bucket or has had its cancel function called: the
    Timeline never lets go of a context without cancelling it. A cancelled
    context stays cancelled, and after [Cancel] every context the Timeline
    has returned is cancelled. *)
Theorem returned_context_kept_or_canceled r bg (w : World G) t
    at_ now w1 t1 h cs w2 t2 :
  reachable r bg w t ->
  Context at_ now w t = Ok (w1, t1, h) ->
  steps (fun _ _ => True) w1 t1 cs w2 t2 ->
  (canceled h (heap w2) = true \/
   exists d, lookupDeadline (keyOf t at_) t2 = Some d /\ context d = h) /\
  (canceled h (heap w1) = true -> canceled h (heap w2) = true) /\
  (forall w3 t3, Cancel w2 t2 = (w3, t3) -> canceled h (heap w3) = true).
Proof.
  intros [Hwf _]%reachable_wf HOk Hsteps.
  pose proof (Context_post _ _ _ _ _ _ _ Hwf HOk) as (Hwf1 & _).
  destruct (steps_wf _ _ _ _ _ _ Hsteps Hwf1) as [Hwf2 _].
  pose proof (liveOrCanceled_steps _ _ _ _ _ _ _ _ Hsteps Hwf1
                (liveOrCanceled_Context _ _ _ _ _ _ _ Hwf HOk))
    as [Hlt Hlive].
  split; [done|]. split; [by eapply canceled_steps|].
  intros w3 t3 HC.
  apply Cancel_spec in HC as (_ & _ & _ & _ & Hcan). apply Hcan.
  destruct Hlive as [?|(d & Hk & <-)]; [by left|].
  right. exists (keyOf t at_), d. split; [done|].
  split; [by eapply (wf_cancel _ _ Hwf2)|by eapply (wf_alloc _ _ Hwf2)].
Qed.

End Effects.

Lemma returned_context_kept_or_canceled_witness :
  let w := {| heap := []; jitterRand := 0 |} in
  let t := newTimeline 0 None in
  exists w1 t1 h,
    Timeout 0 (1 * Second) w t = Ok (w1, t1, h) /\
    canceled h (heap (Cancel w1 t1).1) = true.
Proof.
  intros w t.
  destruct (Timeout 0 (1 * Second) w t) as [[[w1 t1] h]|] eqn:HOk;
    [|vm_compute in HOk; discriminate].
  exists w1, t1, h. split; [reflexivity|].
  eapply (returned_context_kept_or_canceled 0 None w t
            (Add 0 (1 * Second)) 0 w1 t1 h [] w1 t1
            (reachable_new 0 None w) HOk (steps_nil _ _ _ I)).
  apply surjective_pairing.
Defined.

(** ** Contexts of other owners *)

Section Others.

Context {G : Type} {RG : Rand G}.

Implicit Types (w : World G) (t : Timeline) (d : deadline).

Lemma ownsFrom_perform n c w t w' t' o :
  wf w t -> ownsFrom n w t -> perform c w t = Ok (w', t', o) ->
  ownsFrom n w' t' /\
  (forall h, o = Some h -> (n <= h)%nat) /\
  (forall h0, (h0 < n)%nat ->
     canceled h0 (heap w') = canceled h0 (heap w) /\
     Deadline_of h0 (heap w') = Deadline_of h0 (heap w)).
Proof.
  intros Hwf [Hn Hown]
    [(-> & HC & ->)|(at_ & now & h & _ & HOk & ->)]%perform_inv.
  - apply Cancel_spec in HC as (-> & _ & Hlen & Hdl & Hcan).
    split; [split; [lia|done]|]. split; [done|].
    intros h0 Hlt. split; [|done].
    destruct (canceled h0 (heap w)) eqn:Hold; [apply Hcan; by left|].
    destruct (canceled h0 (heap w')) eqn:Hnew; [|done].
    apply Hcan in Hnew as [?|(k & d & Hk & Hc & _)]; [congruence|].
    rewrite (wf_cancel _ _ Hwf _ _ Hk) in Hc. injection Hc as <-.
    apply Hown in Hk. lia.
  - pose proof (Context_post _ _ _ _ _ _ _ Hwf HOk)
      as (_ & _ & (Hlen & _ & Hdl) & Hh & _ & _ & Hold & _).
    destruct (Context_effects _ _ _ _ _ _ _ Hwf HOk) as (Hmono & _ & Honly).
    assert (n <= h)%nat as Hnh.
    { destruct (lookupDeadline (keyOf t at_) t) as [d|] eqn:Hk.
      - destruct Hh as (-> & _). by eapply Hown.
      - lia. }
    split; [split; [lia|]|split].
    + intros k d Hk.
      destruct (decide (k = keyOf t at_)) as [->|Hne].
      * pose proof (Context_post _ _ _ _ _ _ _ Hwf HOk)
          as (_ & _ & _ & _ & _ & Hiff & _).
        by rewrite (proj1 (Hiff _ _ Hk) eq_refl).
      * eapply Hown. by apply Hold.
    + by intros ? [= <-].
    + intros h0 Hlt. split; [|apply Hdl; lia].
      destruct (canceled h0 (heap w)) eqn:Hc; [by apply Hmono|].
      destruct (canceled h0 (heap w')) eqn:Hc'; [|done].
      assert (h0 < length (heap w))%nat as Hlt0 by lia.
      destruct (Honly h0 Hlt0 Hc') as [?|(k & d & Hk & <- & _)];
        [congruence|].
      apply Hown in Hk. lia.
Qed.

(** X7: a Timeline touches no context but its own. Through any calls on a
    Timeline that started as the zero value, the contexts that were in the
    heap before keep their cancellation state and their deadline, and none
    of them is ever returned. *)
Theorem other_contexts_untouched r bg (w0 : World G) cs w t :
  steps (fun _ _ => True) w0 (newTimeline r bg) cs w t ->
  (forall h0, (h0 < length (heap w0))%nat ->
     canceled h0 (heap w) = canceled h0 (heap w0) /\
     Deadline_of h0 (heap w) = Deadline_of h0 (heap w0)) /\
  (forall c w' t' h, perform c w t = Ok (w', t', Some h) ->
     (length (heap w0) <= h)%nat).
Proof.
  set (n := length (heap w0)).
  assert (forall w1 t1 cs w t,
            steps (fun _ _ => True) w1 t1 cs w t ->
            wf w1 t1 -> ownsFrom n w1 t1 ->
            wf w t /\ ownsFrom n w t /\
            forall h0, (h0 < n)%nat ->
              canceled h0 (heap w) = canceled h0 (heap w1) /\
              Deadline_of h0 (heap w) = Deadline_of h0 (heap w1)) as Hgen.
  { clear. intros w1 t1 cs w t.
    induction 1 as [|c cs w t w1 t1 o w' t' _ Hcall _ IH]; [done|].
    intros Hwf Hown.
    destruct (ownsFrom_perform _ _ _ _ _ _ _ Hwf Hown Hcall)
      as (Hown1 & _ & Hsame1).
    apply perform_wf in Hcall as (Hwf1 & _); [|done].
    destruct (IH Hwf1 Hown1) as (Hwf' & Hown' & Hsame').
    split; [done|]. split; [done|]. intros h0 Hlt.
    destruct (Hsame' h0 Hlt) as [-> ->]. by apply Hsame1. }
  intros Hsteps.
  destruct (Hgen _ _ _ _ _ Hsteps (wf_new w0 r bg)) as (Hwf & Hown & Hsame).
  { split; [done|]. intros k d Hk. done. }
  split; [done|]. intros c w' t' h Hcall.
  destruct (ownsFrom_perform _ _ _ _ _ _ _ Hwf Hown Hcall) as (_ & Hret & _).
  by apply Hret.
Qed.

End Others.

Lemma other_contexts_untouched_witness :
  let w0 := {| heap := [{| ctxDeadline := 5; ctxCanceled := false;
                              ctxBornDone := false |}];
               jitterRand := 0 |} in
  exists w t,
    steps (fun _ _ => True) w0 (newTimeline 10 None)
      [CallContext 5 1000; CallCancel] w t /\
    canceled 0 (heap w) = canceled 0 (heap w0).
Proof.
  intros w0.
  destruct (perform (CallContext 5 1000) w0 (newTimeline 10 None))
    as [[[w1 t1] o1]|] eqn:H1; [|vm_compute in H1; discriminate].
  destruct (perform CallCancel w1 t1) as [[[w2 t2] o2]|] eqn:H2.
  2: { simpl in H2. destruct (Cancel w1 t1). discriminate. }
  assert (steps (fun _ _ => True) w0 (newTimeline 10 None)
            [CallContext 5 1000; CallCancel] w2 t2) as Hsteps.
  { eapply steps_cons; [exact I|exact H1|].
    eapply steps_cons; [exact I|exact H2|]. apply steps_nil. exact I. }
  exists w2, t2. split; [exact Hsteps|].
  apply (proj1 (other_contexts_untouched 10 None w0 _ w2 t2 Hsteps) 0%nat).
  simpl. lia.
Defined.

(** ** The deadline against the instant asked for *)

Section DeadlineAgainstRequest.

Context {G : Type} {RG : Rand G}.

Implicit Types (w : World G) (t : Timeline) (d : deadline).

Lemma perform_target c at_ w t :
  target c = Some at_ ->
  exists now, clockOf c = Some now /\
    perform c w t =
    ('(w', t', h) ← Context at_ now w t; Ok (w', t', Some h)).
Proof.
  destruct c as [a now|clock timeout|clock dl|]; simpl; [| | |done];
    intros [= <-]; by eexists.
Qed.

(** X5: on a Timeline with a positive resolution and a Background without
    deadline, [Context], [Timeout] and [Deadline] return, for an instant
    at or after the epoch whose next multiple fits an [int64], a context
    whose deadline is never before the instant asked for, and after it by
    at most two resolutions less two nanoseconds (less than one resolution
    for the rounding, less than one for the jitter). *)
Theorem deadline_after_request r bg (w : World G) t c (at_ : Time) :
  reachable r bg w t ->
  0 < resolution t ->
  parentDeadline (background t) = None ->
  target c = Some at_ ->
  0 <= at_ -> at_ + resolution t <= Int64.max_int64 ->
  exists w' t' h dl,
    perform c w t = Ok (w', t', Some h) /\
    Deadline_of h (heap w') = (dl, true) /\
    at_ <= dl <= at_ + 2 * resolution t - 2.
Proof.
  intros [Hwf _]%reachable_wf Hr Hbg Htarget Hat Hmax.
  destruct (perform_target c at_ w t Htarget) as (now & _ & ->).
  destruct (Context_returns at_ now w t Hr) as (w' & t' & h & HOk).
  rewrite HOk. simpl.
  destruct (Context_post _ _ _ _ _ _ _ Hwf HOk)
    as (_ & _ & _ & _ & (j & Hj & Hdl) & _).
  eexists w', t', h, _. split; [done|]. split; [exact Hdl|].
  rewrite deadlineUnder_None by done.
  rewrite (keyOf_nonneg t at_ Hr Hat Hmax).
  destruct (ceilingMultiple_least (resolution t) at_ Hr) as (_ & Hge & _).
  pose proof (ceilingMultiple_lt (resolution t) at_ Hr).
  unfold Add, Unix0. lia.
Qed.

End DeadlineAgainstRequest.

Lemma deadline_after_request_witness :
  let w := {| heap := []; jitterRand := 0 |} in
  let t := newTimeline Millisecond None in
  let c := CallTimeout (3 * Second) (10 * Millisecond) in
  let at_ := 3 * Second + 10 * Millisecond in
  exists w' t' h dl,
    perform c w t = Ok (w', t', Some h) /\
    Deadline_of h (heap w') = (dl, true) /\
    at_ <= dl <= at_ + 2 * resolution t - 2.
Proof.
  intros w t c at_.
  apply (deadline_after_request Millisecond None w t c at_
           (reachable_new _ _ _));
    [reflexivity|reflexivity|reflexivity
    |vm_compute; discriminate|vm_compute; discriminate].
Defined.

(** ** What a sweeping call leaves in the map *)

Section Reclaim.

Context {G : Type} {RG : Rand G}.

Implicit Types (w : World G) (t : Timeline) (d : deadline).

(** On a miss with the due time before [now], the end of [Context] sweeps
    the map the slow path left. *)
Lemma Context_miss_due at_ now w t w' t' h :
  wf w t -> Context at_ now w t = Ok (w', t', h) ->
  lookupDeadline (keyOf t at_) t = None -> cleanupTime t < now ->
  forall k d, lookupDeadline k t' = Some d ->
    expired now (resolution t) (heap w') d = false.
Proof.
  intros Hwf HOk Hk Hdue k d Hkd.
  destruct (Context_miss_split _ _ _ _ _ _ _ HOk Hk)
    as (j & rg & w1 & t1 & Hj & Hcr & Hsweep & ->).
  apply created_spec in Hcr
    as (Hwf1 & _ & _ & (HR1 & _ & _ & HT1 & _) & _); [|done..].
  assert (resolution t1 = resolution t) as Hres
    by (unfold resolution; by rewrite HR1).
  assert (cleanupDue now t1 = true) as Hdue1.
  { apply cleanupDue_lt; [by apply (wf_time _ _ Hwf1)|]. by rewrite HT1. }
  apply tryCleanup_spec in Hsweep
    as (_ & (_ & _ & Hdl) & Hmap & _); [|by apply (wf_gate _ _ Hwf1)].
  apply Hmap in Hkd as [_ Hexp]. specialize (Hexp Hdue1).
  unfold expired in *. by rewrite Hdl, <- Hres.
Qed.

(** X8: a call that misses the cache while the due time is before its
    [now] reclaims every stale bucket: each entry left in the map has its
    deadline plus one resolution at or after [now], so its key is later
    than [now] less two resolutions; and each entry it found is either
    kept as it is, or removed with its context cancelled because [now] is
    after its deadline plus one resolution. *)
Theorem sweep_reclaims r bg (w : World G) t at_ now w' t' h :
  reachable r bg w t ->
  Context at_ now w t = Ok (w', t', h) ->
  lookupDeadline (keyOf t at_) t = None -> cleanupTime t < now ->
  (forall k d, lookupDeadline k t' = Some d ->
     now <= Add (Deadline_of (context d) (heap w')).1 (resolution t) /\
     now - 2 * resolution t < k) /\
  (forall k d, lookupDeadline k t = Some d ->
     lookupDeadline k t' = Some d \/
     (lookupDeadline k t' = None /\
      canceled (context d) (heap w') = true /\
      Add (Deadline_of (context d) (heap w)).1 (resolution t) < now)).
Proof.
  intros [Hwf _]%reachable_wf HOk Hk Hdue.
  pose proof (Context_post _ _ _ _ _ _ _ Hwf HOk) as (Hwf' & [HR HB] & _).
  assert (resolution t' = resolution t) as Hres
    by (unfold resolution; by rewrite HR).
  split.
  - intros k d Hkd.
    pose proof (Context_miss_due _ _ _ _ _ _ _ Hwf HOk Hk Hdue k d Hkd)
      as Hexp%expired_false.
    split; [done|].
    destruct (wf_deadline _ _ Hwf' _ _ Hkd) as (j & Hj & Hdl).
    rewrite Hdl in Hexp. simpl in Hexp.
    pose proof (deadlineUnder_le (background t') (Add (Unix0 k) j)).
    unfold Add, Unix0 in *. lia.
  - intros k d Hkd.
    destruct (Context_effects _ _ _ _ _ _ _ Hwf HOk) as (_ & Hkept & _).
    destruct (Hkept k d Hkd) as [?|(? & ? & ?%expired_true)];
      [by left|by right].
Qed.

(** X9: a request for a bucket at least two resolutions before [now], made
    while the due time is before [now] and the bucket has no entry, is not
    cached: the call returns a new context, already cancelled by its own
    sweep, and leaves no entry for the bucket; the map gets no new
    entry. *)
Theorem past_request_not_cached r bg (w : World G) t at_ now :
  reachable r bg w t -> 0 < resolution t ->
  lookupDeadline (keyOf t at_) t = None -> cleanupTime t < now ->
  keyOf t at_ + 2 * resolution t <= now ->
  exists w' t' h,
    Context at_ now w t = Ok (w', t', h) /\
    h = length (heap w) /\
    canceled h (heap w') = true /\
    lookupDeadline (keyOf t at_) t' = None /\
    (forall k d, lookupDeadline k t' = Some d -> lookupDeadline k t = Some d).
Proof.
  intros [Hwf _]%reachable_wf Hr Hk Hdue Hpast.
  destruct (Context_returns at_ now w t Hr) as (w' & t' & h & HOk).
  exists w', t', h. split; [done|].
  destruct (Context_post _ _ _ _ _ _ _ Hwf HOk)
    as (_ & _ & _ & _ & (j & Hj & Hdl) & _ & Hold & _).
  destruct (Context_miss_post _ _ _ _ _ _ _ Hwf HOk Hk)
    as (Hh & _ & Hgone & Hentry & _).
  assert (cleanupDue now t = true) as Hdue'
    by (apply cleanupDue_lt; [by apply (wf_time _ _ Hwf)|done]).
  assert (expired now (resolution t) (heap w') (newEntry (heap w)) = true)
    as Hexp.
  { apply expired_true. simpl. rewrite <- Hh, Hdl. simpl.
    pose proof (deadlineUnder_le (background t)
                  (Add (Unix0 (keyOf t at_)) j)).
    unfold Add, Unix0 in *. lia. }
  rewrite Hdue', Hexp in *. simpl in *.
  split; [done|]. split; [done|]. split; [done|].
  intros k d Hkd. apply Hold; [done|]. intros ->. congruence.
Qed.

End Reclaim.

Lemma sweep_reclaims_witness :
  let w := {| heap := []; jitterRand := 0 |} in
  let t := newTimeline 10 None in
  exists w' t' h,
    Context 995 1000 w t = Ok (w', t', h) /\
    (forall k d, lookupDeadline k t' = Some d ->
       1000 <= Add (Deadline_of (context d) (heap w')).1 (resolution t) /\ 1000 - 2 * resolution t < k).
Proof.
  intros w t.
  destruct (Context 995 1000 w t) as [[[w' t'] h]|] eqn:HOk;
    [|vm_compute in HOk; discriminate].
  exists w', t', h. split; [reflexivity|].
  exact (proj1 (sweep_reclaims 10 None w t 995 1000 w' t' h
                  (reachable_new 10 None w) HOk eq_refl eq_refl)).
Defined.

Lemma past_request_not_cached_witness :
  let w := {| heap := []; jitterRand := 0 |} in
  let t := newTimeline 0 None in
  let at_ := Unix0 Second in
  let now := Unix0 (1000 * Second) in
  exists w' t' h,
    Context at_ now w t = Ok (w', t', h) /\
    h = length (heap w) /\
    canceled h (heap w') = true /\
    lookupDeadline (keyOf t at_) t' = None /\
    (forall k d, lookupDeadline k t' = Some d -> lookupDeadline k t = Some d).
Proof.
  intros w t at_ now.
  apply (past_request_not_cached 0 None w t at_ now (reachable_new _ _ _));
    [reflexivity|reflexivity|reflexivity|vm_compute; discriminate].
Defined.

(** ** How many calls sweep *)

Section SweepCount.

Context {G : Type} {RG : Rand G}.

Implicit Types (w : World G) (t : Timeline) (d : deadline).

Lemma Context_cleanupTime at_ now w t w' t' h :
  wf w t -> Context at_ now w t = Ok (w', t', h) ->
  if sweeps at_ now t
  then cleanupTime t < now /\
       cleanupTime t' =
       Int64.wrap (cleanupTime t + Int64.mul 100 (resolution t))
  else cleanupTime t' = cleanupTime t.
Proof.
  intros Hwf HOk. destruct (sweeps at_ now t) eqn:Hs.
  - split; [by eapply (sweeps_due at_ now w t)|].
    by eapply Context_sweep_republishes.
  - by eapply Context_no_sweep.
Qed.

Lemma perform_cleanupTime c w t w' t' o :
  wf w t -> perform c w t = Ok (w', t', o) ->
  if callSweeps c t
  then (exists now, clockOf c = Some now /\ cleanupTime t < now) /\
       cleanupTime t' =
       Int64.wrap (cleanupTime t + Int64.mul 100 (resolution t))
  else cleanupTime t' = cleanupTime t.
Proof.
  intros Hwf Hcall.
  destruct c as [at_ now|clock timeout|clock dl|]; simpl in *.
  - destruct (Context at_ now w t) as [[[w1 t1] h]|] eqn:HOk; [|done].
    injection Hcall as <- <- <-.
    pose proof (Context_cleanupTime _ _ _ _ _ _ _ Hwf HOk) as Hstep.
    destruct (sweeps at_ now t); [|done].
    destruct Hstep as [? ?]. split; [by exists now|done].
  - unfold Timeout in Hcall.
    destruct (Context _ clock w t) as [[[w1 t1] h]|] eqn:HOk; [|done].
    injection Hcall as <- <- <-.
    pose proof (Context_cleanupTime _ _ _ _ _ _ _ Hwf HOk) as Hstep.
    destruct (sweeps (Add clock timeout) clock t); [|done].
    destruct Hstep as [? ?]. split; [by exists clock|done].
  - unfold Deadline in Hcall.
    destruct (Context dl clock w t) as [[[w1 t1] h]|] eqn:HOk; [|done].
    injection Hcall as <- <- <-.
    pose proof (Context_cleanupTime _ _ _ _ _ _ _ Hwf HOk) as Hstep.
    destruct (sweeps dl clock t); [|done].
    destruct Hstep as [? ?]. split; [by exists clock|done].
  - destruct (Cancel w t) as [w1 t1] eqn:HC. injection Hcall as <- <- <-.
    apply Cancel_spec in HC as [-> _]. done.
Qed.

Lemma run_cleanupTime B cs : forall w t w' t' n,
  run cs w t = Ok (w', t', n) -> wf w t ->
  0 < resolution t ->
  0 <= cleanupTime t < B + 100 * resolution t ->
  B + 100 * resolution t <= Int64.max_int64 ->
  (forall c now, c ∈ cs -> clockOf c = Some now -> now <= B) ->
  cleanupTime t' = cleanupTime t + Z.of_nat n * (100 * resolution t) /\
  cleanupTime t' < B + 100 * resolution t.
Proof.
  induction cs as [|c cs IH]; intros w t w' t' n; simpl.
  - intros [= <- <- <-] _ _ HD _ _. lia.
  - destruct (perform c w t) as [[[w1 t1] o]|] eqn:Hcall; [|done]. simpl.
    destruct (run cs w1 t1) as [[[w2 t2] n']|] eqn:Hrun; [|done]. simpl.
    intros [= <- <- <-] Hwf Hr HD Hmax Hclock.
    pose proof (perform_cleanupTime _ _ _ _ _ _ Hwf Hcall) as Hstep.
    apply perform_wf in Hcall as (Hwf1 & HR1 & _); [|done].
    assert (resolution t1 = resolution t) as Hres
      by (unfold resolution; by rewrite HR1).
    assert (forall c' now, c' ∈ cs -> clockOf c' = Some now -> now <= B)
      as Hclock' by (intros c' now Hin; apply Hclock; by right).
    specialize (IH w1 t1 w2 t2 n' Hrun Hwf1). rewrite Hres in IH.
    destruct (callSweeps c t).
    + destruct Hstep as [(now & Hc & Hdue) HT].
      assert (now <= B) by (eapply Hclock; [by left|done]).
      assert (cleanupTime t1 = cleanupTime t + 100 * resolution t) as HT1.
      { rewrite HT. unfold Int64.mul.
        unfold Int64.max_int64 in *.
        rewrite (wrap_in_range (100 * resolution t))
          by (unfold Int64.in_range, Int64.min_int64, Int64.max_int64; lia).
        apply wrap_in_range.
        unfold Int64.in_range, Int64.min_int64, Int64.max_int64. lia. }
      destruct IH as [-> Hlt]; [done|lia|done|done|].
      rewrite HT1 in *. split; [lia|done].
    + destruct IH as [-> Hlt]; [done|lia|done|done|].
      rewrite Hstep in *. split; [lia|done].
Qed.

(** X11: what the throttle of the sweep bounds. On a Timeline that started
    as the zero value, with a positive resolution, through calls whose
    clocks are at most [B] (and as long as [B] plus a hundred resolutions
    fits an [int64]): the due time is the number of calls that swept times
    a hundred resolutions, and that number times a hundred resolutions is
    less than [B] plus a hundred resolutions. *)
Theorem sweeps_bounded_by_clock r bg (w0 : World G) B cs w t n :
  0 < resolution (newTimeline r bg) -> 0 <= B ->
  B + 100 * resolution (newTimeline r bg) <= Int64.max_int64 ->
  (forall c now, c ∈ cs -> clockOf c = Some now -> now <= B) ->
  run cs w0 (newTimeline r bg) = Ok (w, t, n) ->
  cleanupTime t = Z.of_nat n * (100 * resolution (newTimeline r bg)) /\
  Z.of_nat n * (100 * resolution (newTimeline r bg))
    < B + 100 * resolution (newTimeline r bg).
Proof.
  intros Hr HB Hmax Hclock Hrun.
  destruct (run_cleanupTime B cs _ _ _ _ _ Hrun (wf_new w0 r bg) Hr)
    as [HT Hlt]; [simpl; lia|done|done|].
  simpl in HT. rewrite HT in Hlt. split; [lia|lia].
Qed.

End SweepCount.

Lemma sweeps_bounded_by_clock_witness :
  let cs := [CallTimeout 2500 5; CallTimeout 2600 5; CallTimeout 2700 5] in
  let w0 := {| heap := []; jitterRand := 0 |} in
  exists w t n,
    run cs w0 (newTimeline 10 None) = Ok (w, t, n) /\
    cleanupTime t = Z.of_nat n * (100 * resolution (newTimeline 10 None)) /\
    Z.of_nat n * (100 * resolution (newTimeline 10 None))
      < 2700 + 100 * resolution (newTimeline 10 None).
Proof.
  intros cs w0.
  destruct (run cs w0 (newTimeline 10 None)) as [[[w t] n]|] eqn:Hrun;
    [|vm_compute in Hrun; discriminate].
  exists w, t, n. split; [reflexivity|].
  apply (sweeps_bounded_by_clock 10 None w0 2700 cs w t n);
    [reflexivity|discriminate|discriminate| |exact Hrun].
  intros c now Hin. unfold cs in Hin.
  rewrite !elem_of_cons, elem_of_nil in Hin.
  destruct Hin as [->|[->|[->|[]]]]; intros [= <-]; discriminate.
Defined.

(** ** The gate of the sweep, among goroutines *)

Section Gate.

Context {G : Type} {RG : Rand G}.

Implicit Types (s : Shared G) (c : Config G) (gs : list goroutine).

Lemma sweeping_insert gs : forall i g g',
  gs !! i = Some g ->
  (sweeping (<[i := g']> gs) + (if inSweep (g_pc g) then 1 else 0)
   = sweeping gs + (if inSweep (g_pc g') then 1 else 0))%nat.
Proof.
  induction gs as [|g0 gs IH]; intros [|i] g g' Hi; simpl in *; try done.
  - injection Hi as ->. lia.
  - specialize (IH i g g' Hi). lia.
Qed.

Lemma sweeping_lookup gs : forall i g,
  gs !! i = Some g -> inSweep (g_pc g) = true -> (1 <= sweeping gs)%nat.
Proof.
  induction gs as [|g0 gs IH]; intros [|i] g Hi Hg; simpl in *; try done.
  - injection Hi as ->. rewrite Hg. lia.
  - specialize (IH i g Hi Hg). lia.
Qed.

Lemma sweeping_two gs : forall i j gi gj,
  gs !! i = Some gi -> gs !! j = Some gj ->
  inSweep (g_pc gi) = true -> inSweep (g_pc gj) = true ->
  i <> j -> (2 <= sweeping gs)%nat.
Proof.
  induction gs as [|g0 gs IH]; intros [|i] [|j] gi gj Hi Hj Hgi Hgj Hne;
    simpl in *; try done.
  - injection Hi as ->. rewrite Hgi.
    pose proof (sweeping_lookup gs j gj Hj Hgj). lia.
  - injection Hj as ->. rewrite Hgj.
    pose proof (sweeping_lookup gs i gi Hi Hgi). lia.
  - assert (i <> j) as Hne' by congruence.
    specialize (IH i j gi gj Hi Hj Hgi Hgj Hne'). lia.
Qed.

Lemma sweeping_some gs :
  (1 <= sweeping gs)%nat ->
  exists i g, gs !! i = Some g /\ inSweep (g_pc g) = true.
Proof.
  induction gs as [|g0 gs IH]; simpl; [lia|].
  destruct (inSweep (g_pc g0)) eqn:Hg0.
  - intros _. by exists 0%nat, g0.
  - intros (i & g & Hi & Hg)%IH. by exists (S i), g.
Qed.

Lemma sweeping_start (calls : list (Time * Time)) :
  sweeping ((fun a : Time * Time =>
               {| g_at := a.1; g_now := a.2; g_pc := AtStart |})
              <$> calls) = 0%nat.
Proof.
  induction calls as [|a calls IH]; [done|].
  rewrite fmap_cons. cbn [sweeping g_pc inSweep]. by rewrite IH.
Qed.

(** What one step does to the gate: the step that takes it finds it free,
    the step that frees it is made by a goroutine that holds it, and no
    other step changes it or who holds it. *)
Lemma advance_gate m s g s' g' :
  advance m s g = Some (s', g') ->
  (inSweep (g_pc g) = true -> cleanupLock (timeline s) = 1) ->
  0 <= cleanupLock (timeline s) <= 1 ->
  cleanupLock (timeline s') + (if inSweep (g_pc g) then 1 else 0)
  = cleanupLock (timeline s) + (if inSweep (g_pc g') then 1 else 0) /\
  0 <= cleanupLock (timeline s') <= 1.
Proof.
  destruct s as [w t mk], g as [at_ now p]. unfold advance. simpl.
  intros Hadv Hheld Hlock.
  destruct p as [|k0|d|d ct|d ct|d|d k' d'|d k'|d|h], m as [|k1|];
    simpl in *; try done.
  - destruct (fastPath _ _); injection Hadv as <- <-; simpl; lia.
  - destruct (lookupOrCreate _ _ _ _ _ _) as [[[w1 t1] d1]|] eqn:Hloc; [|done].
    injection Hadv as <- <-. simpl.
    apply lookupOrCreate_Ok in Hloc.
    destruct (lookupDeadline k0 t).
    + destruct Hloc as (_ & -> & _). lia.
    + destruct Hloc as (_ & j & rg & _ & _ & -> & _). simpl. lia.
  - destruct (cleanupDue now t); injection Hadv as <- <-; simpl; lia.
  - unfold tryLockCleanup in Hadv.
    destruct (cleanupLock t =? 0) eqn:Hfree.
    + apply Z.eqb_eq in Hfree. injection Hadv as <- <-. simpl. lia.
    + injection Hadv as <- <-. simpl. lia.
  - injection Hadv as <- <-. simpl. lia.
  - destruct (lookupDeadline k1 t); [|done].
    injection Hadv as <- <-. simpl. lia.
  - injection Hadv as <- <-. simpl. lia.
  - destruct (expired _ _ _ _); injection Hadv as <- <-; simpl; lia.
  - injection Hadv as <- <-. simpl. lia.
  - injection Hadv as <- <-. simpl. specialize (Hheld eq_refl). lia.
Qed.

Lemma step_gate im c c' :
  step im c = Some c' ->
  Z.of_nat (sweeping (pool c)) = cleanupLock (timeline (shared c)) ->
  (sweeping (pool c) <= 1)%nat ->
  Z.of_nat (sweeping (pool c')) = cleanupLock (timeline (shared c')) /\
  (sweeping (pool c') <= 1)%nat.
Proof.
  unfold step. intros Hstep Hcount Hone.
  destruct (pool c !! im.1) as [g|] eqn:Hg; [|done].
  destruct (advance im.2 (shared c) g) as [[s' g']|] eqn:Hadv; [|done].
  injection Hstep as <-. simpl.
  pose proof (sweeping_insert (pool c) im.1 g g' Hg) as Hins.
  destruct (advance_gate _ _ _ _ _ Hadv) as [Heq Hlock'].
  - intros Hin. pose proof (sweeping_lookup _ _ _ Hg Hin). lia.
  - lia.
  - destruct (inSweep (g_pc g)), (inSweep (g_pc g')); lia.
Qed.

Lemma exec_gate sched : forall c c',
  exec sched c = Some c' ->
  Z.of_nat (sweeping (pool c)) = cleanupLock (timeline (shared c)) ->
  (sweeping (pool c) <= 1)%nat ->
  Z.of_nat (sweeping (pool c')) = cleanupLock (timeline (shared c')) /\
  (sweeping (pool c') <= 1)%nat.
Proof.
  induction sched as [|im sched IH]; intros c c'; simpl.
  - by intros [= <-].
  - destruct (step im c) as [c1|] eqn:Hstep; [|done].
    intros Hexec Hcount Hone.
    destruct (step_gate _ _ _ Hstep Hcount Hone) as [? ?]. by eapply IH.
Qed.

(** X10: the gate of the sweep excludes. Whatever the order in which the
    steps of goroutines calling [Context] interleave, starting with the
    gate free: at most one goroutine is between its successful
    [tryLockCleanup] and its [unlockCleanup]; [cleanupLock] is one exactly
    when some goroutine is there and zero otherwise, so that once every
    call has returned the gate is free again. *)
Theorem one_sweeper_at_a_time (w : World G) t calls sched c :
  cleanupLock t = 0 ->
  exec sched (start w t calls) = Some c ->
  (forall i j gi gj,
     pool c !! i = Some gi -> pool c !! j = Some gj ->
     inSweep (g_pc gi) = true -> inSweep (g_pc gj) = true -> i = j) /\
  (cleanupLock (timeline (shared c)) = 1 <->
   exists i g, pool c !! i = Some g /\ inSweep (g_pc g) = true) /\
  (cleanupLock (timeline (shared c)) = 0 \/
   cleanupLock (timeline (shared c)) = 1) /\
  (Forall (fun g => exists h, g_pc g = Returned h) (pool c) ->
   cleanupLock (timeline (shared c)) = 0).
Proof.
  intros Hfree Hexec.
  destruct (exec_gate _ _ _ Hexec) as [Hcount Hone].
  { simpl. rewrite sweeping_start. by rewrite Hfree. }
  { simpl. rewrite sweeping_start. lia. }
  assert (cleanupLock (timeline (shared c)) = 1 <->
          exists i g, pool c !! i = Some g /\ inSweep (g_pc g) = true)
    as Hheld.
  { split.
    - intros Hl. apply sweeping_some. lia.
    - intros (i & g & Hi & Hg).
      pose proof (sweeping_lookup _ _ _ Hi Hg). lia. }
  split; [|split; [done|split; [lia|]]].
  - intros i j gi gj Hi Hj Hgi Hgj.
    destruct (decide (i = j)) as [|Hne]; [done|].
    pose proof (sweeping_two _ _ _ _ _ Hi Hj Hgi Hgj Hne). lia.
  - intros Hall.
    destruct (sweeping (pool c)) as [|n] eqn:Hn; [lia|].
    destruct (sweeping_some (pool c)) as (i & g & Hi & Hg); [lia|].
    rewrite Forall_lookup in Hall.
    destruct (Hall i g Hi) as [h Hh]. rewrite Hh in Hg. done.
Qed.

End Gate.

Lemma one_sweeper_at_a_time_witness :
  let w := {| heap := []; jitterRand := 0 |} in
  let t := newTimeline 10 None in
  let calls := [(995, 1000); (1005, 1000)] in
  let sched :=
    [(0, Next); (0, Next); (0, Next); (0, Next);
     (1, Next); (1, Next); (1, Next); (1, Next)]%nat in
  exists c,
    exec sched (start w t calls) = Some c /\
    (cleanupLock (timeline (shared c)) = 1 <->
     exists i g, pool c !! i = Some g /\ inSweep (g_pc g) = true).
Proof.
  intros w t calls sched.
  destruct (exec sched (start w t calls)) as [c|] eqn:Hexec;
    [|vm_compute in Hexec; discriminate].
  exists c. split; [reflexivity|].
  exact (proj1 (proj2 (one_sweeper_at_a_time w t calls sched c
                         eq_refl Hexec))).
Defined.

(** ** What the sweep removes, among goroutines *)

Section ConcurrentSweepFacts.

Context {G : Type} {RG : Rand G}.

Implicit Types (s : Shared G) (c : Config G) (g : goroutine).








End ConcurrentSweepFacts.


